(** * json2srt: Whisper JSON transcripts to SRT subtitles

    A shallow embedding of [main.go].  Go strings are byte sequences, so
    they are modelled by [string] (lists of 8-bit [ascii]); slices are
    lists; a slice that may be [nil] is an [option (list _)]. *)

From Stdlib Require Import String Ascii List Arith NArith Bool Lia.
From Stdlib Require Import Sorted Permutation.
From Stdlib Require Import DecimalString DecimalNat.
Import ListNotations.
Open Scope list_scope.
Open Scope string_scope.

(** ** Data model (main.go, lines 15-38) *)

Module Timestamp.
Record t : Type := mk { From : string; To : string }.
End Timestamp.

Module Token.
Record t : Type := mk { Text : string; Timestamps : Timestamp.t }.
End Token.

Module Segment.
Record t : Type :=
  mk { Timestamps : Timestamp.t; Text : string; Tokens : list Token.t }.
End Segment.

Module WhisperOutput.
(** [Transcription] is a Go slice that [processFile] compares with
    [nil]: [None] is the nil slice left by a missing or null
    "transcription" key, [Some l] a slice that is present. *)
Record t : Type := mk { Transcription : option (list Segment.t) }.
End WhisperOutput.

(** ** Go library functions used by the program *)

(** [strings.HasPrefix]. *)
Definition HasPrefix (s pre : string) : bool := String.prefix pre s.

(** The test of lines 49 and 60:
    [!strings.HasPrefix(token.Text, "[_") && token.Text != ""]. *)
Definition isSpeech (token : Token.t) : bool :=
  negb (HasPrefix (Token.Text token) "[_") && negb (Token.Text token =? "").

(** ** extractTimestamps (main.go, lines 43-74) *)

(** First loop (lines 48-55): forward over the tokens, stopping at the
    first speech token.  The pair is [(startTime, hasValidTokens)]. *)
Fixpoint scanStart (tokens : list Token.t) (startTime : string)
    (hasValidTokens : bool) : string * bool :=
  match tokens with
  | [] => (startTime, hasValidTokens)
  | token :: rest =>
      if isSpeech token
      then (Timestamp.From (Token.Timestamps token), true)
      else scanStart rest startTime hasValidTokens
  end.

(** Second loop (lines 58-65): [j] runs from [len-1] down to [0]; the
    argument [n] is [j+1].  [None] is the run-time panic of the index
    expression [segment.Tokens[j]] when [j] is out of range. *)
Fixpoint scanEnd (tokens : list Token.t) (n : nat) (endTime : string)
    (hasValidTokens : bool) : option (string * bool) :=
  match n with
  | 0 => Some (endTime, hasValidTokens)
  | S j =>
      match nth_error tokens j with
      | Some token =>
          if isSpeech token
          then Some (Timestamp.To (Token.Timestamps token), true)
          else scanEnd tokens j endTime hasValidTokens
      | None => None
      end
  end.

(** The function returns [(startTime, endTime, hasValidTokens)]; [None]
    stands for a panic. *)
Definition extractTimestamps (segment : Segment.t)
    : option (string * string * bool) :=
  let '(startTime, hasValidTokens) :=
    scanStart (Segment.Tokens segment) "" false in
  match scanEnd (Segment.Tokens segment) (length (Segment.Tokens segment))
                "" hasValidTokens with
  | None => None
  | Some (endTime, hasValidTokens) =>
      if negb hasValidTokens || (startTime =? "") || (endTime =? "")
      then Some (Timestamp.From (Segment.Timestamps segment),
                 Timestamp.To (Segment.Timestamps segment), hasValidTokens)
      else Some (startTime, endTime, hasValidTokens)
  end.

(** ** Go library functions used by processFile *)

(** [utf8.EncodeRune] for code points below U+10000 (all that the
    white-space table needs). *)
Definition EncodeRune (r : N) : list ascii :=
  (if r <? 128 then [ascii_of_N r]
   else if r <? 2048 then
     [ascii_of_N (192 + r / 64); ascii_of_N (128 + r mod 64)]
   else
     [ascii_of_N (224 + r / 4096);
      ascii_of_N (128 + (r / 64) mod 64);
      ascii_of_N (128 + r mod 64)])%N.

(** The code points for which [unicode.IsSpace] holds: tab to carriage
    return, space, U+0085, U+00A0 and the [White_Space] range table. *)
Definition White_Space : list N :=
  [9; 10; 11; 12; 13; 32; 133; 160; 5760;
   8192; 8193; 8194; 8195; 8196; 8197; 8198; 8199; 8200; 8201; 8202;
   8232; 8233; 8239; 8287; 12288]%N.

Definition spaceRunes : list (list ascii) :=
  Eval cbv in map EncodeRune White_Space.

(** [stripPrefix p s] is [Some rest] when [s = p ++ rest]. *)
Fixpoint stripPrefix (p s : list ascii) : option (list ascii) :=
  match p, s with
  | [], _ => Some s
  | _ :: _, [] => None
  | a :: p', b :: s' => if Ascii.eqb a b then stripPrefix p' s' else None
  end.

(** Remove one rune of [table] from the front of [s], if [s] starts
    with one. *)
Fixpoint stripRune (table : list (list ascii)) (s : list ascii)
    : option (list ascii) :=
  match table with
  | [] => None
  | w :: table' =>
      match stripPrefix w s with
      | Some rest => Some rest
      | None => stripRune table' s
      end
  end.

(** Remove runes of [table] from the front of [s] until the first rune
    outside it; [fuel] bounds the number of runes removed. *)
Fixpoint trimRunes (table : list (list ascii)) (fuel : nat) (s : list ascii)
    : list ascii :=
  match fuel with
  | 0 => s
  | S fuel' =>
      match stripRune table s with
      | Some rest => trimRunes table fuel' rest
      | None => s
      end
  end.

(** [strings.TrimLeftFunc(s, unicode.IsSpace)] on the bytes of [s]. *)
Definition TrimLeftSpace (s : list ascii) : list ascii :=
  trimRunes spaceRunes (length s) s.

(** [strings.TrimRightFunc(s, unicode.IsSpace)]: the same scan from the
    end, decoding the last rune at each step. *)
Definition TrimRightSpace (s : list ascii) : list ascii :=
  rev (trimRunes (map (@rev ascii) spaceRunes) (length s) (rev s)).

(** [strings.TrimSpace]: all leading and trailing white space removed,
    as defined by Unicode.  The library decodes runes from the front
    and from the back; a white-space rune is decoded exactly where the
    bytes are its UTF-8 encoding (an ill-formed sequence decodes to
    U+FFFD, which is no white space), so the runes removed are the byte
    sequences of [spaceRunes]. *)
Definition TrimSpace (s : string) : string :=
  string_of_list_ascii
    (TrimRightSpace (TrimLeftSpace (list_ascii_of_string s))).

(** [fmt.Sprintf("%d", n)] for a non-negative [n]. *)
Definition Sprintf_d (n : nat) : string :=
  NilEmpty.string_of_uint (Nat.to_uint n).

(** The line feed ["\n"]. *)
Definition LF : string := String (ascii_of_nat 10) "".

(** ** Contexts and errors *)

(** A [context.Context] as [processFile] observes it: [Done ctx k] tells
    whether the channel [ctx.Done()] is ready at the [k]-th poll of one
    call (poll 0 at entry, poll [i+1] before segment [i]). *)
Module Context.
Record t : Type := mk { Done : nat -> bool }.
(** [context.Background()]: never cancelled. *)
Definition Background : t := mk (fun _ => false).
End Context.

(** The errors [processFile] returns, by the place that builds them. *)
Inductive error : Type :=
| ErrContext                (* ctx.Err(), lines 82 and 107 *)
| ErrReadFile               (* line 89 *)
| ErrUnmarshal              (* line 93 *)
| ErrMissingTranscription   (* line 98 *)
| ErrWriteFile.             (* line 126 *)

(** ** The rendering part of processFile (main.go, lines 96-120) *)

(** What one iteration appends to [srtBuilder] (lines 116-119). *)
Definition block (i : nat) (startTime endTime : string) (segment : Segment.t)
    : string :=
  let text := TrimSpace (Segment.Text segment) in
  (Sprintf_d (i + 1) ++ LF)
  ++ (startTime ++ " --> " ++ endTime ++ LF)
  ++ (text ++ LF ++ LF).

(** How a call ends: with a value, with a returned [error], or in a
    run-time panic. *)
Inductive outcome (A : Type) : Type :=
| Ok (a : A)
| Err (e : error)
| Panic.
Arguments Ok {A} a.
Arguments Err {A} e.
Arguments Panic {A}.

(** The loop of lines 104-120, from index [i] on, with the builder's
    content threaded through. *)
Fixpoint renderSegments (ctx : Context.t) (i : nat)
    (segments : list Segment.t) (srtBuilder : string) : outcome string :=
  match segments with
  | [] => Ok srtBuilder
  | segment :: rest =>
      if Context.Done ctx (S i) then Err ErrContext
      else
        match extractTimestamps segment with
        | None => Panic
        | Some (startTime, endTime, _) =>
            if (startTime =? "") || (endTime =? "")
            then renderSegments ctx (S i) rest srtBuilder
            else renderSegments ctx (S i) rest
                   (srtBuilder ++ block i startTime endTime segment)
        end
  end.

(** Lines 96-120: the nil check, then the loop on an empty builder. *)
Definition render (ctx : Context.t) (output : WhisperOutput.t)
    : outcome string :=
  match WhisperOutput.Transcription output with
  | None => Err ErrMissingTranscription
  | Some segments => renderSegments ctx 0 segments ""
  end.

(** ** Captions: the blocks the loop emits, as data *)

Module Caption.
Record t : Type := mk { Index : nat; Range : Timestamp.t; Text : string }.
End Caption.

(** The captions the loop of lines 104-120 emits from index [i] on: one
    per segment that is not skipped, numbered as line 117 numbers it. *)
Fixpoint captionsFrom (i : nat) (segments : list Segment.t)
    : list Caption.t :=
  match segments with
  | [] => []
  | segment :: rest =>
      match extractTimestamps segment with
      | Some (startTime, endTime, _) =>
          if (startTime =? "") || (endTime =? "")
          then captionsFrom (S i) rest
          else Caption.mk (i + 1) (Timestamp.mk startTime endTime)
                          (TrimSpace (Segment.Text segment))
               :: captionsFrom (S i) rest
      | None => []
      end
  end.

Definition captions (segments : list Segment.t) : list Caption.t :=
  captionsFrom 0 segments.

(** One caption in the layout of lines 117-119. *)
Definition format (c : Caption.t) : string :=
  (Sprintf_d (Caption.Index c) ++ LF)
  ++ (Timestamp.From (Caption.Range c) ++ " --> "
      ++ Timestamp.To (Caption.Range c) ++ LF)
  ++ (Caption.Text c ++ LF ++ LF).

Definition formatAll (cs : list Caption.t) : string :=
  fold_right (fun c acc => format c ++ acc) "" cs.

(** Whether the loop skips [segment] (lines 111-114). *)
Definition skipped (segment : Segment.t) : bool :=
  match extractTimestamps segment with
  | Some (startTime, endTime, _) => (startTime =? "") || (endTime =? "")
  | None => false
  end.

(** A context that is never cancelled during a call. *)
Definition neverDone (ctx : Context.t) : Prop :=
  forall k, Context.Done ctx k = false.

(** ** Vocabulary of the specification *)


(** [s] is a sequence of runes of [table]. *)
Inductive runs (table : list (list ascii)) : list ascii -> Prop :=
| runs_nil : runs table []
| runs_rune w s : In w table -> runs table s -> runs table (w ++ s)%list.

(** [s] consists of white space only. *)
Definition allSpace (s : list ascii) : Prop := runs spaceRunes s.

(** No rune of [table] is empty or a proper prefix of another one. *)
Definition prefixFree (table : list (list ascii)) : bool :=
  forallb (fun w =>
    negb (match w with [] => true | _ => false end) &&
    forallb (fun w' => match stripPrefix w w' with
                       | Some (_ :: _) => false
                       | _ => true
                       end) table) table.

(** [s] starts (ends) with a white-space rune. *)
Definition startsWithSpace (s : list ascii) : Prop :=
  exists w rest, In w spaceRunes /\ s = (w ++ rest)%list.
Definition endsWithSpace (s : list ascii) : Prop :=
  exists w front, In w spaceRunes /\ s = (front ++ w)%list.

(** [s] is a non-empty sequence of decimal digits. *)
Definition isDigit (c : ascii) : bool :=
  (48 <=? nat_of_ascii c)%nat && (nat_of_ascii c <=? 57)%nat.
Definition isNumber (s : string) : bool :=
  negb (s =? "") && forallb isDigit (list_ascii_of_string s).

(** The tokens of a segment that take part in timing resolution. *)
Definition speechTokens (segment : Segment.t) : list Token.t :=
  filter isSpeech (Segment.Tokens segment).

(** The token-derived bounds of steps 1 and 2 of the specification:
    the start of the first speech token, the end of the last one. *)
Definition tokenStart (segment : Segment.t) : option string :=
  option_map (fun token => Timestamp.From (Token.Timestamps token))
             (hd_error (speechTokens segment)).
Definition tokenEnd (segment : Segment.t) : option string :=
  option_map (fun token => Timestamp.To (Token.Timestamps token))
             (hd_error (rev (speechTokens segment))).

(** ** The environment of processFile *)

(** The file system and the JSON decoder, as [processFile] uses them.
    [ReadFile] is [os.ReadFile] ([None]: an error); [WriteFile] is
    [os.WriteFile], giving the new file system and whether the write
    succeeded; [Unmarshal] is [json.Unmarshal] into a zero
    [WhisperOutput] ([None]: an error). *)
Class Env : Type := {
  FS : Type;
  ReadFile : FS -> string -> option string;
  WriteFile : FS -> string -> string -> FS * bool;
  Unmarshal : string -> option WhisperOutput.t
}.

(** [strings.HasSuffix] and [strings.TrimSuffix]. *)
Definition HasSuffix (s suffix : string) : bool :=
  let n := String.length s in
  let m := String.length suffix in
  (m <=? n)%nat && (substring (n - m) m s =? suffix).

Definition TrimSuffix (s suffix : string) : string :=
  if HasSuffix s suffix
  then substring 0 (String.length s - String.length suffix) s
  else s.

(** [filepath.Ext]: the scan starts at the last byte ([rpath] is the
    path reversed, [acc] the bytes already passed) and stops at a dot
    or at a path separator. *)
Fixpoint extScan (rpath acc : list ascii) : list ascii :=
  match rpath with
  | [] => []
  | c :: rpath' =>
      if Ascii.eqb c "/" then []
      else if Ascii.eqb c "." then c :: acc
      else extScan rpath' (c :: acc)
  end.

Definition Ext (path : string) : string :=
  string_of_list_ascii (extScan (rev (list_ascii_of_string path)) []).

(** Line 86. *)
Definition srtPathOf (jsonPath : string) : string :=
  TrimSuffix jsonPath (Ext jsonPath) ++ ".srt".

(** Line 122: the UTF-8 byte order mark. *)
Definition bom : string :=
  String (ascii_of_nat 239) (String (ascii_of_nat 187)
    (String (ascii_of_nat 191) "")).

(** What the program prints, one event per print statement, with the
    path of the task it belongs to.  The text of the message shows
    [filepath.Base] of that path (line 128: of its subtitle file). *)
Inductive event : Type :=
| EvStart (id : nat) (jsonPath : string)              (* line 143 *)
| EvSuccess (jsonPath : string)                       (* line 128 *)
| EvError (id : nat) (jsonPath : string) (e : error)  (* line 145 *)
| EvDone (numJobs : nat).                             (* line 202 *)

Section Process.
Context {env : Env}.

(** The state outside the program: the files and what was printed. *)
Record World : Type := mkWorld { files : FS; output : list event }.

Definition emit (ev : event) (w : World) : World :=
  mkWorld (files w) (output w ++ [ev])%list.

(** Lines 80-124 of [processFile]: everything up to the bytes handed
    to [os.WriteFile]. *)
Definition dataToWrite (ctx : Context.t) (jsonPath : string) (fs : FS)
    : outcome string :=
  if Context.Done ctx 0 then Err ErrContext
  else
    match ReadFile fs jsonPath with
    | None => Err ErrReadFile
    | Some byteValue =>
        match Unmarshal byteValue with
        | None => Err ErrUnmarshal
        | Some output =>
            match render ctx output with
            | Ok content => Ok (bom ++ content)
            | Err e => Err e
            | Panic => Panic
            end
        end
    end.

(** [processFile] (lines 78-130). *)
Definition processFile (ctx : Context.t) (jsonPath : string) (w : World)
    : World * outcome unit :=
  match dataToWrite ctx jsonPath (files w) with
  | Ok data =>
      let '(fs', ok) := WriteFile (files w) (srtPathOf jsonPath) data in
      if ok
      then (emit (EvSuccess jsonPath) (mkWorld fs' (output w)), Ok tt)
      else (mkWorld fs' (output w), Err ErrWriteFile)
  | Err e => (w, Err e)
  | Panic => (w, Panic)
  end.

(** ** The worker pool (main.go, lines 133-149 and 181-202)

    One transition per channel or wait-group operation; a call of
    [processFile] is one transition of the worker that makes it. *)

Local Open Scope list_scope.

(** Where [main] is: sending the paths of line 194 that remain, waiting
    at [wg.Wait()] after [close(jobs)], or past line 202. *)
Inductive mainState : Type :=
| Sending (pending : list string)
| Waiting
| Finished.

(** Where a worker is: at its [select], inside [processFile], or
    returned (its [wg.Done()] has run). *)
Inductive workerState : Type :=
| Idle
| Busy (jsonPath : string)
| Returned.

Record pool : Type := mkPool {
  mainAt : mainState;
  jobs : list string;            (* the buffer of the channel *)
  workers : list workerState;    (* worker [id] is at position [id-1] *)
  world : World;
  crashed : bool                 (* a goroutine has panicked *)
}.

(** The channel is closed once [main] has left its sending loop. *)
Definition closed (st : pool) : bool :=
  match mainAt st with Sending _ => false | _ => true end.

Definition allReturned (ws : list workerState) : bool :=
  forallb (fun w => match w with Returned => true | _ => false end) ws.

(** The state after line 192: [numWorkers] workers started
    ([runtime.NumCPU()] of them), nothing sent yet.  [jsonPaths] is what
    the scan of the directory found; when it is empty [main] returns at
    line 178 and does not come here. *)
Definition initial (jsonPaths : list string) (numWorkers : nat) (fs : FS)
    : pool :=
  mkPool (Sending jsonPaths) [] (repeat Idle numWorkers)
         (mkWorld fs []) false.

(** The transitions of [main] from line 194 on.  [numJobs] is the
    capacity of the channel (line 182) and the count of line 202. *)
Inductive main (numJobs : nat) : pool -> pool -> Prop :=
| main_send st p pending :            (* line 195 *)
    crashed st = false ->
    mainAt st = Sending (p :: pending) ->
    length (jobs st) < numJobs ->
    main numJobs st
         (mkPool (Sending pending) (jobs st ++ [p]) (workers st)
                 (world st) false)
| main_close st :                     (* line 197 *)
    crashed st = false ->
    mainAt st = Sending [] ->
    main numJobs st
         (mkPool Waiting (jobs st) (workers st) (world st) false)
| main_wait st :                      (* lines 199-202 *)
    crashed st = false ->
    mainAt st = Waiting ->
    allReturned (workers st) = true ->
    main numJobs st
         (mkPool Finished (jobs st) (workers st)
                 (emit (EvDone numJobs) (world st)) false).

(** The transitions of [worker] number [id] (lines 133-149).  Its
    context is [context.Background()] (line 152), whose [Done] channel
    is never ready, so the first case of the [select] is never taken. *)
Inductive worker : nat -> pool -> pool -> Prop :=
| worker_receive st before after p rest :   (* lines 139-143 *)
    crashed st = false ->
    workers st = before ++ Idle :: after ->
    jobs st = p :: rest ->
    worker (S (length before)) st
           (mkPool (mainAt st) rest (before ++ Busy p :: after)
                   (emit (EvStart (S (length before)) p) (world st)) false)
| worker_return st before after :       (* lines 140-142 *)
    crashed st = false ->
    workers st = before ++ Idle :: after ->
    jobs st = [] ->
    closed st = true ->
    worker (S (length before)) st
           (mkPool (mainAt st) [] (before ++ Returned :: after)
                   (world st) false)
| worker_done st before after p w' :    (* line 144, err == nil *)
    crashed st = false ->
    workers st = before ++ Busy p :: after ->
    processFile Context.Background p (world st) = (w', Ok tt) ->
    worker (S (length before)) st
           (mkPool (mainAt st) (jobs st) (before ++ Idle :: after) w' false)
| worker_failed st before after p w' e :    (* lines 144-146 *)
    crashed st = false ->
    workers st = before ++ Busy p :: after ->
    processFile Context.Background p (world st) = (w', Err e) ->
    worker (S (length before)) st
           (mkPool (mainAt st) (jobs st) (before ++ Idle :: after)
                   (emit (EvError (S (length before)) p e) w') false)
| worker_panic st before after p w' :   (* a panic inside processFile *)
    crashed st = false ->
    workers st = before ++ Busy p :: after ->
    processFile Context.Background p (world st) = (w', Panic) ->
    worker (S (length before)) st
           (mkPool (mainAt st) (jobs st) (before ++ Returned :: after)
                   w' true).

(** One transition of the program: of [main] or of one worker. *)
Inductive step (numJobs : nat) : pool -> pool -> Prop :=
| step_main st st' : main numJobs st st' -> step numJobs st st'
| step_worker id st st' : worker id st st' -> step numJobs st st'.

(** [run numJobs n st st']: [st'] is reached from [st] in [n]
    transitions. *)
Inductive run (numJobs : nat) : nat -> pool -> pool -> Prop :=
| run_refl st : run numJobs 0 st st
| run_step n st st' st'' :
    run numJobs n st st' -> step numJobs st' st'' ->
    run numJobs (S n) st st''.

(** The paths of the tasks begun, and of the tasks reported, in the
    order of the output. *)
Definition startedPath (ev : event) : list string :=
  match ev with EvStart _ p => [p] | _ => [] end.
Definition reportedPath (ev : event) : list string :=
  match ev with EvSuccess p => [p] | EvError _ p _ => [p] | _ => [] end.
Definition started (out : list event) : list string :=
  flat_map startedPath out.
Definition reported (out : list event) : list string :=
  flat_map reportedPath out.

Definition busyPath (w : workerState) : list string :=
  match w with Busy p => [p] | _ => [] end.
Definition busy (ws : list workerState) : list string :=
  flat_map busyPath ws.

(** A bound on the transitions that remain in any run from [st]. *)
Definition remaining (st : pool) : nat :=
  (match mainAt st with
   | Sending pending => 2 + 3 * length pending
   | Waiting => 1
   | Finished => 0
   end)
  + 2 * length (jobs st)
  + length (busy (workers st))
  + length (filter (fun w => negb match w with Returned => true
                                              | _ => false end)
                   (workers st)).

(** The paths [main] has still to send. *)
Definition pending (st : pool) : list string :=
  match mainAt st with Sending l => l | _ => [] end.

(** What holds of every state of a run for the paths [jsonPaths] with
    [numWorkers] workers. *)
Record poolInv (jsonPaths : list string) (numWorkers : nat) (st : pool)
    : Prop := {
  inv_alive : crashed st = false;
  inv_workers : length (workers st) = numWorkers;
  inv_jobs :
    Permutation (started (output (world st)) ++ jobs st ++ pending st)
                jsonPaths;
  inv_busy :
    Permutation (reported (output (world st)) ++ busy (workers st))
                (started (output (world st)));
  inv_returned :
    In Returned (workers st) -> jobs st = [] /\ closed st = true;
  inv_finished :
    mainAt st = Finished ->
    allReturned (workers st) = true
    /\ exists out, output (world st) = out ++ [EvDone (length jsonPaths)]
}.

(** What the output of a run from the files [fs] says of each task is
    what the task does on its own on [fs]: a logged error other than a
    failed write is the error of [dataToWrite] there, and a task
    reported successful had data to write. *)
Definition faithful (fs : FS) (st : pool) : Prop :=
  (forall id p e, In (EvError id p e) (output (world st)) ->
      e = ErrWriteFile \/ dataToWrite Context.Background p fs = Err e)
  /\ (forall p, In (EvSuccess p) (output (world st)) ->
        exists data, dataToWrite Context.Background p fs = Ok data).
End Process.

(** ** Sample segments *)

Module Examples.
Definition ts (from to : string) : Timestamp.t := Timestamp.mk from to.

(** A noise token followed by two words. *)
Definition scenarioA : Segment.t :=
  Segment.mk (ts "00:00:00,000" "00:00:03,000") " hello world"
    [Token.mk "[_NOISE_]" (ts "00:00:00,000" "00:00:00,100");
     Token.mk " hello" (ts "00:00:00,500" "00:00:01,200");
     Token.mk " world" (ts "00:00:01,200" "00:00:02,000")].

(** Noise tokens only. *)
Definition scenarioB : Segment.t :=
  Segment.mk (ts "00:00:01,000" "00:00:02,000") " (music)"
    [Token.mk "[_BEG_]" (ts "00:00:01,000" "00:00:01,000");
     Token.mk "[_TT_50]" (ts "00:00:02,000" "00:00:02,000")].

(** A text with white space at both ends. *)
Definition scenarioD : Segment.t :=
  Segment.mk (ts "00:00:04,000" "00:00:05,000") "  hi  " [].

(** A first word without start time. *)
Definition scenarioE : Segment.t :=
  Segment.mk (ts "00:00:06,000" "00:00:09,000") " good night"
    [Token.mk " good" (ts "" "00:00:07,000");
     Token.mk " night" (ts "00:00:07,000" "00:00:08,000")].

(** Neither speech tokens nor timing of its own. *)
Definition untimed : Segment.t :=
  Segment.mk (ts "" "") " lost" [Token.mk "[_BEG_]" (ts "" "")].


(** A text of white space only: a space, a tab and U+3000. *)
Definition blank : Segment.t :=
  Segment.mk (ts "00:00:13,000" "00:00:14,000")
    (String " " (String (ascii_of_nat 9) (String (ascii_of_nat 227)
       (String (ascii_of_nat 128) (String (ascii_of_nat 128) "")))))
    [Token.mk " " (ts "00:00:13,000" "00:00:14,000")].
End Examples.

(** ** A sample environment *)

Module SampleEnv.
(** The double quote. *)
Definition quote : string := String (ascii_of_nat 34) "".

(** The document with an empty transcription list. *)
Definition emptyDocument : string :=
  "{" ++ quote ++ "transcription" ++ quote ++ ":[]}".

(** A decoder for three documents: [null] and the empty object leave
    the transcription nil, [emptyDocument] gives an empty list; any
    other input is refused. *)
Definition decode (byteValue : string) : option WhisperOutput.t :=
  if (byteValue =? "null") || (byteValue =? "{}")
  then Some (WhisperOutput.mk None)
  else if byteValue =? emptyDocument
       then Some (WhisperOutput.mk (Some []))
       else None.

(** Files as an association list from paths to contents; a write adds
    a binding in front and always succeeds. *)
Fixpoint lookup (fs : list (string * string)) (path : string)
    : option string :=
  match fs with
  | [] => None
  | (p, data) :: fs' => if p =? path then Some data else lookup fs' path
  end.

#[export] Instance env : Env := {|
  FS := list (string * string);
  ReadFile := lookup;
  WriteFile := fun fs path data => ((path, data) :: fs, true);
  Unmarshal := decode
|}.

(** A directory with a document without transcription and one with an
    empty transcription. *)
Definition disk : list (string * string) :=
  [("/w/a.json", "{}"); ("/w/b.json", emptyDocument)].

Definition paths : list string := ["/w/a.json"; "/w/b.json"].
End SampleEnv.

(** ** A sample run *)

Module SampleRun.
(** The state at the end of a run on [SampleEnv.disk] with one worker:
    the task of the first path has failed, the second has written its
    subtitle file. *)
Definition final : pool (env := SampleEnv.env) :=
  mkPool (env := SampleEnv.env) Finished [] [Returned]
    (mkWorld (env := SampleEnv.env)
       (("/w/b.srt", bom) :: SampleEnv.disk)
       [EvStart 1 "/w/a.json";
        EvError 1 "/w/a.json" ErrMissingTranscription;
        EvStart 1 "/w/b.json";
        EvSuccess "/w/b.json";
        EvDone 2])
    false.
End SampleRun.

(** ** main: the scan of the directory (main.go, lines 163-179) *)

Module DirEntry.
(** An entry of [os.ReadDir], by the two methods the program calls. *)
Record t : Type := mk { Name : string; IsDir : bool }.
End DirEntry.

(** The library functions of the scan that are taken as given:
    [strings.Map(unicode.ToLower, s)], which [strings.ToLower] returns
    for a string with a byte outside ASCII, and [filepath.Join]. *)
Class Library : Type := {
  MapToLower : string -> string;
  Join : string -> string -> string
}.

Definition isASCII (s : string) : bool :=
  forallb (fun c => (nat_of_ascii c <? 128)%nat) (list_ascii_of_string s).

(** A letter from A to Z becomes the letter from a to z. *)
Definition lowerByte (c : ascii) : ascii :=
  let n := nat_of_ascii c in
  if (65 <=? n)%nat && (n <=? 90)%nat then ascii_of_nat (n + 32) else c.

Fixpoint lowerBytes (s : string) : string :=
  match s with
  | "" => ""
  | String c s' => String (lowerByte c) (lowerBytes s')
  end.

(** [strings.ToLower]: byte by byte on a string of ASCII bytes. *)
Definition ToLower {lib : Library} (s : string) : string :=
  if isASCII s then lowerBytes s else MapToLower s.

(** The test of line 170. *)
Definition isJSONFile {lib : Library} (file : DirEntry.t) : bool :=
  negb (DirEntry.IsDir file)
  && HasSuffix (ToLower (DirEntry.Name file)) ".json".

(** The loop of lines 169-174, with the slice [jsonPaths] threaded
    through. *)
Fixpoint scan {lib : Library} (workDir : string) (files : list DirEntry.t)
    (jsonPaths : list string) : list string :=
  match files with
  | [] => jsonPaths
  | file :: rest =>
      if isJSONFile file
      then scan workDir rest
                (jsonPaths ++ [Join workDir (DirEntry.Name file)])%list
      else scan workDir rest jsonPaths
  end.

(** [main] from line 168 to line 192, for the directory [workDir] with
    the entries [files] (lines 155-166 end the program when they cannot
    be had): [None] is the return of line 178, otherwise the pool is
    started with [numCPU] workers. *)
Definition start {lib : Library} {env : Env} (workDir : string)
    (files : list DirEntry.t) (numCPU : nat) (fs : FS) : option pool :=
  let jsonPaths := scan workDir files [] in
  if (length jsonPaths =? 0)%nat then None
  else Some (initial jsonPaths numCPU fs).

(** [s] has neither a dot nor a path separator. *)
Definition plain (s : string) : bool :=
  forallb (fun c => negb (Ascii.eqb c "/") && negb (Ascii.eqb c "."))
          (list_ascii_of_string s).

Module SampleLib.
(** Names are ASCII and the directory is a clean absolute path. *)
#[export] Instance lib : Library := {|
  MapToLower := fun s => s;
  Join := fun dir name => dir ++ "/" ++ name
|}.

(** Two documents, a directory and another file. *)
Definition entries : list DirEntry.t :=
  [DirEntry.mk "a.json" false;
   DirEntry.mk "archive.json" true;
   DirEntry.mk "b.json" false;
   DirEntry.mk "notes.txt" false].
End SampleLib.

(** * Properties *)

(** ** The model on the sample segments *)

Example scenarioA_timing :
  extractTimestamps Examples.scenarioA =
  Some ("00:00:00,500", "00:00:02,000", true).
Proof. reflexivity. Qed.

Example scenarioB_timing :
  extractTimestamps Examples.scenarioB =
  Some ("00:00:01,000", "00:00:02,000", false).
Proof. reflexivity. Qed.

Example scenarioE_timing :
  extractTimestamps Examples.scenarioE =
  Some ("00:00:06,000", "00:00:09,000", true).
Proof. reflexivity. Qed.

Example scenarioC_render :
  render Context.Background (WhisperOutput.mk None) =
  Err ErrMissingTranscription.
Proof. reflexivity. Qed.

Example scenarioD_text : TrimSpace "  hi  " = "hi".
Proof. reflexivity. Qed.

Example srtPathOf_json : srtPathOf "/w/talk.v2.JSON" = "/w/talk.v2.srt".
Proof. reflexivity. Qed.

Example render_samples :
  render Context.Background
    (WhisperOutput.mk
       (Some [Examples.scenarioA; Examples.untimed; Examples.scenarioD]))
  = Ok ("1" ++ LF ++ "00:00:00,500 --> 00:00:02,000" ++ LF
        ++ "hello world" ++ LF ++ LF
        ++ "3" ++ LF ++ "00:00:04,000 --> 00:00:05,000" ++ LF
        ++ "hi" ++ LF ++ LF).
Proof. reflexivity. Qed.

(** ** Timing resolution *)

Lemma scanStart_spec tokens startTime hasValidTokens :
  scanStart tokens startTime hasValidTokens =
  match hd_error (filter isSpeech tokens) with
  | Some token => (Timestamp.From (Token.Timestamps token), true)
  | None => (startTime, hasValidTokens)
  end.
Proof.
  induction tokens as [|token rest IH]; simpl; [reflexivity|].
  destruct (isSpeech token); simpl; [reflexivity | exact IH].
Qed.

Lemma firstn_snoc (A : Type) (l : list A) j x :
  nth_error l j = Some x -> firstn (S j) l = (firstn j l ++ [x])%list.
Proof.
  revert j; induction l as [|a l IH]; intros [|j] H; simpl in *;
    try discriminate.
  - now inversion H.
  - f_equal. now apply IH.
Qed.

Lemma filter_snoc (A : Type) (f : A -> bool) l x :
  filter f (l ++ [x])%list =
  (if f x then filter f l ++ [x] else filter f l)%list.
Proof.
  rewrite filter_app; simpl. destruct (f x); [reflexivity|].
  now rewrite app_nil_r.
Qed.

(** The backward loop never indexes out of range, and finds the last
    speech token among the first [n]. *)
Lemma scanEnd_spec tokens n endTime hasValidTokens :
  n <= length tokens ->
  scanEnd tokens n endTime hasValidTokens =
  Some match hd_error (rev (filter isSpeech (firstn n tokens))) with
       | Some token => (Timestamp.To (Token.Timestamps token), true)
       | None => (endTime, hasValidTokens)
       end.
Proof.
  induction n as [|j IH]; intros Hn; [reflexivity|].
  simpl scanEnd.
  destruct (nth_error tokens j) as [token|] eqn:Hj.
  - rewrite (firstn_snoc _ _ _ _ Hj), filter_snoc.
    destruct (isSpeech token).
    + now rewrite rev_app_distr.
    + apply IH; lia.
  - apply nth_error_None in Hj; lia.
Qed.

Lemma speechTokens_rev_nil segment :
  hd_error (speechTokens segment) = None <->
  hd_error (rev (speechTokens segment)) = None.
Proof.
  destruct (speechTokens segment) as [|t l]; simpl; [tauto|].
  split; [discriminate|].
  destruct (rev l); discriminate.
Qed.

(** [extractTimestamps], in the words of the specification: both
    token-derived bounds when both are there and non-empty, the
    segment's own pair otherwise. *)
Lemma extractTimestamps_spec segment :
  extractTimestamps segment =
  Some match tokenStart segment, tokenEnd segment with
       | Some s, Some e =>
           if (s =? "") || (e =? "")
           then (Timestamp.From (Segment.Timestamps segment),
                 Timestamp.To (Segment.Timestamps segment), true)
           else (s, e, true)
       | _, _ =>
           (Timestamp.From (Segment.Timestamps segment),
            Timestamp.To (Segment.Timestamps segment), false)
       end.
Proof.
  unfold extractTimestamps, tokenStart, tokenEnd.
  rewrite scanStart_spec. fold (speechTokens segment).
  pose proof (speechTokens_rev_nil segment) as Hnil.
  destruct (hd_error (speechTokens segment)) as [first|]; simpl;
    rewrite scanEnd_spec, firstn_all by lia; fold (speechTokens segment);
    destruct (hd_error (rev (speechTokens segment))) as [last|]; simpl.
  - now destruct (_ || _).
  - destruct Hnil as [_ Hnil]. now specialize (Hnil eq_refl).
  - destruct Hnil as [Hnil _]. now specialize (Hnil eq_refl).
  - reflexivity.
Qed.

Lemma speechTokens_nil segment :
  (forall token, In token (Segment.Tokens segment) -> isSpeech token = false) ->
  speechTokens segment = [].
Proof.
  unfold speechTokens. intros H.
  induction (Segment.Tokens segment) as [|t l IH]; simpl; [reflexivity|].
  rewrite (H t) by now left. apply IH. intros; apply H; now right.
Qed.

Lemma filter_all_false (A : Type) (f : A -> bool) l :
  Forall (fun x => f x = false) l -> filter f l = [].
Proof.
  induction 1 as [|x l Hx _ IH]; simpl; [reflexivity|]. now rewrite Hx.
Qed.

(** The first speech token is the head of [speechTokens]. *)
Lemma speechTokens_first segment noise first rest :
  Segment.Tokens segment = (noise ++ first :: rest)%list ->
  Forall (fun token => isSpeech token = false) noise ->
  isSpeech first = true ->
  hd_error (speechTokens segment) = Some first.
Proof.
  unfold speechTokens. intros -> Hnoise Hfirst.
  rewrite filter_app, (filter_all_false _ _ _ Hnoise); simpl.
  now rewrite Hfirst.
Qed.

(** The last speech token is the head of [speechTokens] reversed. *)
Lemma speechTokens_last segment front last noise :
  Segment.Tokens segment = (front ++ last :: noise)%list ->
  Forall (fun token => isSpeech token = false) noise ->
  isSpeech last = true ->
  hd_error (rev (speechTokens segment)) = Some last.
Proof.
  unfold speechTokens. intros -> Hnoise Hlast.
  rewrite filter_app; simpl.
  rewrite Hlast, (filter_all_false _ _ _ Hnoise), rev_app_distr; simpl.
  reflexivity.
Qed.

(** C2.  When a segment has no speech token (none that is non-empty and
    free of the noise prefix), or when its token-derived start or end is
    the empty string, [extractTimestamps] returns the segment's own pair
    [(Timestamps.From, Timestamps.To)], both bounds together. *)
Theorem extractTimestamps_fallback_pair segment :
  (forall token, In token (Segment.Tokens segment) -> isSpeech token = false)
  \/ tokenStart segment = Some "" \/ tokenEnd segment = Some "" ->
  exists hasValidTokens,
    extractTimestamps segment =
    Some (Timestamp.From (Segment.Timestamps segment),
          Timestamp.To (Segment.Timestamps segment), hasValidTokens).
Proof.
  intros H. rewrite extractTimestamps_spec.
  destruct H as [Hnone | [Hs | He]].
  - unfold tokenStart. rewrite (speechTokens_nil _ Hnone); simpl. eauto.
  - rewrite Hs. destruct (tokenEnd segment); simpl; eauto.
  - rewrite He. destruct (tokenStart segment) as [s|]; simpl; eauto.
    rewrite orb_true_r. eauto.
Qed.

Lemma extractTimestamps_fallback_pair_witness :
  exists hasValidTokens,
    extractTimestamps Examples.scenarioE =
    Some ("00:00:06,000", "00:00:09,000", hasValidTokens).
Proof.
  apply (extractTimestamps_fallback_pair Examples.scenarioE).
  right; left. reflexivity.
Defined.

(** C3.  When a segment has a speech token, the first one has a
    non-empty start and the last one a non-empty end, then
    [extractTimestamps] returns the start of the first and the end of
    the last. *)
Theorem extractTimestamps_token_bounds
    segment noise1 first rest front last noise2 :
  Segment.Tokens segment = (noise1 ++ first :: rest)%list ->
  Forall (fun token => isSpeech token = false) noise1 ->
  isSpeech first = true ->
  Segment.Tokens segment = (front ++ last :: noise2)%list ->
  Forall (fun token => isSpeech token = false) noise2 ->
  isSpeech last = true ->
  Timestamp.From (Token.Timestamps first) <> "" ->
  Timestamp.To (Token.Timestamps last) <> "" ->
  extractTimestamps segment =
  Some (Timestamp.From (Token.Timestamps first),
        Timestamp.To (Token.Timestamps last), true).
Proof.
  intros E1 N1 S1 E2 N2 S2 Hfrom Hto.
  rewrite extractTimestamps_spec. unfold tokenStart, tokenEnd.
  rewrite (speechTokens_first _ _ _ _ E1 N1 S1).
  rewrite (speechTokens_last _ _ _ _ E2 N2 S2). simpl.
  apply String.eqb_neq in Hfrom, Hto. now rewrite Hfrom, Hto.
Qed.

Lemma extractTimestamps_token_bounds_witness :
  extractTimestamps Examples.scenarioA =
  Some ("00:00:00,500", "00:00:02,000", true).
Proof.
  apply (extractTimestamps_token_bounds Examples.scenarioA
           [Token.mk "[_NOISE_]" (Examples.ts "00:00:00,000" "00:00:00,100")]
           (Token.mk " hello" (Examples.ts "00:00:00,500" "00:00:01,200"))
           [Token.mk " world" (Examples.ts "00:00:01,200" "00:00:02,000")]
           [Token.mk "[_NOISE_]" (Examples.ts "00:00:00,000" "00:00:00,100");
            Token.mk " hello" (Examples.ts "00:00:00,500" "00:00:01,200")]
           (Token.mk " world" (Examples.ts "00:00:01,200" "00:00:02,000"))
           []);
    try reflexivity; try discriminate.
  - repeat constructor.
  - constructor.
Defined.

(** [extractTimestamps] never panics. *)
Lemma extractTimestamps_total segment :
  exists startTime endTime hasValidTokens,
    extractTimestamps segment = Some (startTime, endTime, hasValidTokens).
Proof.
  rewrite extractTimestamps_spec.
  destruct (tokenStart segment), (tokenEnd segment); try destruct (_ || _);
    eauto.
Qed.

(** The loop passes over a segment that [skipped] holds of. *)
Lemma renderSegments_skip ctx i segment rest srtBuilder :
  Context.Done ctx (S i) = false ->
  skipped segment = true ->
  renderSegments ctx i (segment :: rest) srtBuilder =
  renderSegments ctx (S i) rest srtBuilder.
Proof.
  unfold skipped. intros Hctx Hskip. simpl. rewrite Hctx.
  destruct (extractTimestamps segment) as [[[s e] h]|]; [|discriminate].
  now rewrite Hskip.
Qed.

Lemma captionsFrom_skip i segment rest :
  skipped segment = true ->
  captionsFrom i (segment :: rest) = captionsFrom (S i) rest.
Proof.
  unfold skipped. intros Hskip. simpl.
  destruct (extractTimestamps segment) as [[[s e] h]|]; [|discriminate].
  now rewrite Hskip.
Qed.

(** C6.  [extractTimestamps] returns for every segment (it has no error
    result and never panics).  For a segment without speech token whose
    own timing is empty it returns the empty strings, and the loop then
    goes on to the next segment with the builder unchanged: no caption,
    no error. *)
Theorem extractTimestamps_never_fails segment :
  (forall token, In token (Segment.Tokens segment) -> isSpeech token = false) ->
  Timestamp.From (Segment.Timestamps segment) = "" ->
  Timestamp.To (Segment.Timestamps segment) = "" ->
  (forall s, exists startTime endTime hasValidTokens,
      extractTimestamps s = Some (startTime, endTime, hasValidTokens))
  /\ extractTimestamps segment = Some ("", "", false)
  /\ (forall i rest, captionsFrom i (segment :: rest) = captionsFrom (S i) rest)
  /\ (forall ctx i rest srtBuilder,
        Context.Done ctx (S i) = false ->
        renderSegments ctx i (segment :: rest) srtBuilder =
        renderSegments ctx (S i) rest srtBuilder).
Proof.
  intros Hnoise Hfrom Hto.
  assert (E : extractTimestamps segment = Some ("", "", false)).
  { rewrite extractTimestamps_spec. unfold tokenStart.
    rewrite (speechTokens_nil _ Hnoise); simpl. now rewrite Hfrom, Hto. }
  assert (Hskip : skipped segment = true) by (unfold skipped; now rewrite E).
  split; [exact extractTimestamps_total|].
  split; [exact E|].
  split; intros.
  - now apply captionsFrom_skip.
  - now apply renderSegments_skip.
Qed.

Lemma extractTimestamps_never_fails_witness :
  extractTimestamps Examples.untimed = Some ("", "", false)
  /\ captions [Examples.untimed; Examples.scenarioA]
     = captionsFrom 1 [Examples.scenarioA].
Proof.
  destruct (extractTimestamps_never_fails Examples.untimed)
    as (_ & E & Hcaptions & _).
  - intros token [<- | []]. reflexivity.
  - reflexivity.
  - reflexivity.
  - split; [exact E | apply Hcaptions].
Defined.

(** ** Trimming white space *)

Lemma stripPrefix_Some p s rest :
  stripPrefix p s = Some rest <-> s = (p ++ rest)%list.
Proof.
  revert s; induction p as [|a p IH]; intros s; simpl.
  - split; [now intros [= ->] | now intros ->].
  - destruct s as [|b s]; [split; discriminate|].
    destruct (Ascii.eqb_spec a b) as [->|Hab].
    + rewrite IH. split; [now intros -> | now intros [= ->]].
    + split; [discriminate | intros [= E _]; now elim Hab].
Qed.

Lemma app_eq_prefix (A : Type) (w w' x y : list A) :
  (w ++ x = w' ++ y)%list ->
  (exists z, w' = w ++ z)%list \/ (exists z, w = w' ++ z)%list.
Proof.
  revert w'; induction w as [|a w IH]; intros w' E.
  - left. now exists w'.
  - destruct w' as [|b w']; [right; now exists (a :: w)|].
    simpl in E. injection E as -> E.
    destruct (IH _ E) as [[z ->] | [z ->]]; [left | right]; now exists z.
Qed.

Section Runes.
(** A table of runes, none empty, none a proper prefix of another. *)
Variable table : list (list ascii).
Hypothesis table_ok : prefixFree table = true.

Lemma rune_nonempty w : In w table -> w <> [].
Proof.
  intros Hw. pose proof table_ok as H. unfold prefixFree in H.
  rewrite forallb_forall in H. specialize (H _ Hw).
  apply andb_prop in H as [H _]. now destruct w.
Qed.

Lemma rune_prefix w w' z :
  In w table -> In w' table -> w' = (w ++ z)%list -> z = [].
Proof.
  intros Hw Hw' E. pose proof table_ok as H. unfold prefixFree in H.
  rewrite forallb_forall in H. specialize (H _ Hw).
  apply andb_prop in H as [_ H]. rewrite forallb_forall in H.
  specialize (H _ Hw'). apply stripPrefix_Some in E. rewrite E in H.
  now destruct z.
Qed.

(** A string splits in one way only into a rune and a rest. *)
Lemma rune_unique w w' x y :
  In w table -> In w' table -> (w ++ x = w' ++ y)%list ->
  w = w' /\ x = y.
Proof.
  intros Hw Hw' E.
  assert (w = w') as <-.
  { destruct (app_eq_prefix _ _ _ _ _ E) as [[z Ez] | [z Ez]].
    - rewrite (rune_prefix w w' z Hw Hw' Ez), app_nil_r in Ez. now symmetry.
    - now rewrite (rune_prefix w' w z Hw' Hw Ez), app_nil_r in Ez. }
  split; [reflexivity | now apply app_inv_head in E].
Qed.

Lemma stripRune_Some s rest :
  stripRune table s = Some rest ->
  exists w, In w table /\ s = (w ++ rest)%list.
Proof.
  clear table_ok. induction table as [|w t IH]; simpl; [discriminate|].
  destruct (stripPrefix w s) as [r|] eqn:E.
  - intros [= <-]. apply stripPrefix_Some in E. exists w; simpl; auto.
  - intros H. destruct (IH H) as (w' & Hw' & ->). exists w'; simpl; auto.
Qed.

Lemma stripRune_None s :
  stripRune table s = None ->
  forall w rest, In w table -> s <> (w ++ rest)%list.
Proof.
  clear table_ok. induction table as [|w t IH]; simpl; [intros _ ? ? []|].
  destruct (stripPrefix w s) as [r|] eqn:E; [discriminate|].
  intros H w' rest [<- | Hw'] Es.
  - apply stripPrefix_Some in Es. congruence.
  - exact (IH H _ _ Hw' Es).
Qed.

Lemma stripRune_rune w rest :
  In w table -> stripRune table (w ++ rest)%list = Some rest.
Proof.
  intros Hw. destruct (stripRune table (w ++ rest)%list) as [r|] eqn:E.
  - destruct (stripRune_Some _ _ E) as (w' & Hw' & E').
    now destruct (rune_unique _ _ _ _ Hw Hw' E') as [_ ->].
  - now elim (stripRune_None _ E w rest Hw).
Qed.

Lemma runs_app a b :
  runs table a -> runs table b -> runs table (a ++ b)%list.
Proof.
  induction 1 as [|w s Hw _ IH]; intros Hb; simpl; [exact Hb|].
  rewrite <- app_assoc. apply runs_rune; auto.
Qed.

(** What [trimRunes] removes is a sequence of runes. *)
Lemma trimRunes_split fuel s :
  exists lead,
    runs table lead /\ s = (lead ++ trimRunes table fuel s)%list.
Proof.
  revert s; induction fuel as [|fuel IH]; intros s; simpl.
  - exists []. split; [constructor | reflexivity].
  - destruct (stripRune table s) as [rest|] eqn:E.
    + destruct (stripRune_Some _ _ E) as (w & Hw & ->).
      destruct (IH rest) as (lead & Hlead & Erest).
      exists (w ++ lead)%list. split; [now constructor|].
      rewrite <- app_assoc. now f_equal.
    + exists []. split; [constructor | reflexivity].
Qed.

(** With fuel for every byte, [trimRunes] stops at a byte sequence
    that does not start with a rune. *)
Lemma trimRunes_stops fuel s :
  length s <= fuel -> stripRune table (trimRunes table fuel s) = None.
Proof.
  revert s; induction fuel as [|fuel IH]; intros s Hlen; simpl.
  - destruct s; [|simpl in Hlen; lia].
    destruct (stripRune table []) as [r|] eqn:E; [|reflexivity].
    destruct (stripRune_Some _ _ E) as (w & Hw & Es).
    symmetry in Es. apply app_eq_nil in Es as [-> _].
    now elim (rune_nonempty _ Hw).
  - destruct (stripRune table s) as [rest|] eqn:E; [|exact E].
    apply IH. destruct (stripRune_Some _ _ E) as (w & Hw & ->).
    pose proof (rune_nonempty _ Hw). rewrite length_app in Hlen.
    destruct w; [congruence | simpl in Hlen; lia].
Qed.

(** A sequence of runes is trimmed to nothing. *)
Lemma trimRunes_runs fuel s :
  runs table s -> length s <= fuel -> trimRunes table fuel s = [].
Proof.
  intros Hs; revert fuel; induction Hs as [|w s Hw Hs IH]; intros fuel Hlen.
  - destruct (trimRunes_split fuel []) as (lead & _ & E).
    symmetry in E. now apply app_eq_nil in E.
  - pose proof (rune_nonempty _ Hw). rewrite length_app in Hlen.
    destruct fuel as [|fuel]; [destruct w; [congruence|simpl in Hlen; lia]|].
    simpl. rewrite (stripRune_rune _ _ Hw). apply IH.
    destruct w; [congruence | simpl in Hlen; lia].
Qed.
End Runes.

Lemma spaceRunes_prefixFree : prefixFree spaceRunes = true.
Proof. vm_compute. reflexivity. Qed.

Lemma spaceRunes_suffixFree : prefixFree (map (@rev ascii) spaceRunes) = true.
Proof. vm_compute. reflexivity. Qed.

Lemma runs_rev table l : runs (map (@rev ascii) table) l -> runs table (rev l).
Proof.
  induction 1 as [|w' s Hw' _ IH]; [constructor|].
  apply in_map_iff in Hw' as (w & <- & Hw).
  rewrite rev_app_distr, rev_involutive.
  apply runs_app; [exact IH|].
  rewrite <- (app_nil_r w). constructor; [exact Hw | constructor].
Qed.

Lemma TrimLeftSpace_spec l :
  exists lead,
    allSpace lead /\ l = (lead ++ TrimLeftSpace l)%list
    /\ ~ startsWithSpace (TrimLeftSpace l).
Proof.
  unfold TrimLeftSpace.
  destruct (trimRunes_split spaceRunes (length l) l) as (lead & Hlead & E).
  exists lead. repeat split; [exact Hlead | exact E |].
  intros (w & rest & Hw & Ew).
  eapply stripRune_None; [|exact Hw|exact Ew].
  apply trimRunes_stops; [exact spaceRunes_prefixFree | lia].
Qed.

Lemma TrimRightSpace_spec l :
  exists trail,
    allSpace trail /\ l = (TrimRightSpace l ++ trail)%list
    /\ ~ endsWithSpace (TrimRightSpace l).
Proof.
  unfold TrimRightSpace.
  set (table := map (@rev ascii) spaceRunes).
  destruct (trimRunes_split table (length l) (rev l)) as (lead & Hlead & E).
  exists (rev lead). repeat split.
  - now apply runs_rev.
  - rewrite <- rev_app_distr, <- E. now rewrite rev_involutive.
  - intros (w & front & Hw & Ew).
    apply (f_equal (@rev ascii)) in Ew.
    rewrite rev_involutive, rev_app_distr in Ew.
    eapply stripRune_None; [|apply (in_map (@rev ascii)), Hw|exact Ew].
    apply trimRunes_stops; [exact spaceRunes_suffixFree|].
    rewrite length_rev. lia.
Qed.

(** [TrimSpace] removes a run of white space at each end and leaves a
    text that neither starts nor ends with white space. *)
Lemma TrimSpace_spec s :
  exists lead trail,
    allSpace lead /\ allSpace trail
    /\ list_ascii_of_string s =
       (lead ++ list_ascii_of_string (TrimSpace s) ++ trail)%list
    /\ ~ startsWithSpace (list_ascii_of_string (TrimSpace s))
    /\ ~ endsWithSpace (list_ascii_of_string (TrimSpace s)).
Proof.
  unfold TrimSpace. rewrite list_ascii_of_string_of_list_ascii.
  set (l := list_ascii_of_string s).
  destruct (TrimLeftSpace_spec l) as (lead & Hlead & El & Hstart).
  destruct (TrimRightSpace_spec (TrimLeftSpace l)) as (trail & Htrail & Er & Hend).
  exists lead, trail. repeat split; try assumption.
  - now rewrite <- Er.
  - intros (w & rest & Hw & Ew). apply Hstart.
    exists w, (rest ++ trail)%list. split; [exact Hw|].
    now rewrite Er, Ew, app_assoc.
Qed.

(** A text of white space only is trimmed to the empty string. *)
Lemma TrimSpace_allSpace s :
  allSpace (list_ascii_of_string s) -> TrimSpace s = "".
Proof.
  intros Hs. unfold TrimSpace, TrimLeftSpace.
  rewrite (trimRunes_runs spaceRunes spaceRunes_prefixFree); auto.
Qed.

(** ** Rendering *)

Lemma append_nil_r (s : string) : s ++ "" = s.
Proof. induction s as [|c s IH]; simpl; [reflexivity | now rewrite IH]. Qed.

Lemma append_assoc (a b c : string) : (a ++ b) ++ c = a ++ (b ++ c).
Proof. induction a as [|x a IH]; simpl; [reflexivity | now rewrite IH]. Qed.

Lemma formatAll_app cs1 cs2 :
  formatAll (cs1 ++ cs2)%list = formatAll cs1 ++ formatAll cs2.
Proof.
  induction cs1 as [|c cs1 IH]; simpl; [reflexivity|].
  now rewrite IH, append_assoc.
Qed.

Lemma block_format i startTime endTime segment :
  block i startTime endTime segment =
  format (Caption.mk (i + 1) (Timestamp.mk startTime endTime)
                     (TrimSpace (Segment.Text segment))).
Proof. reflexivity. Qed.

(** The loop appends to the builder the blocks of the captions, in
    order, and nothing else. *)
Lemma renderSegments_captions ctx segments :
  neverDone ctx ->
  forall i srtBuilder,
    renderSegments ctx i segments srtBuilder =
    Ok (srtBuilder ++ formatAll (captionsFrom i segments)).
Proof.
  intros Hctx. induction segments as [|segment rest IH]; intros i b; simpl.
  - now rewrite append_nil_r.
  - rewrite Hctx.
    destruct (extractTimestamps_total segment) as (s & e & h & E).
    rewrite E. destruct ((s =? "") || (e =? "")); rewrite IH.
    + reflexivity.
    + simpl formatAll. now rewrite block_format, append_assoc.
Qed.

Lemma render_captions ctx segments :
  neverDone ctx ->
  render ctx (WhisperOutput.mk (Some segments)) =
  Ok (formatAll (captions segments)).
Proof.
  intros Hctx. unfold render; simpl.
  now rewrite renderSegments_captions.
Qed.

(** Every caption comes from the segment at its index, which was not
    skipped; its range is the resolved pair and its text the trimmed
    text of that segment. *)
Lemma captionsFrom_origin i segments c :
  In c (captionsFrom i segments) ->
  exists k segment hasValidTokens,
    nth_error segments k = Some segment
    /\ Caption.Index c = i + k + 1
    /\ skipped segment = false
    /\ extractTimestamps segment =
       Some (Timestamp.From (Caption.Range c),
             Timestamp.To (Caption.Range c), hasValidTokens)
    /\ Caption.Text c = TrimSpace (Segment.Text segment).
Proof.
  revert i; induction segments as [|segment rest IH]; intros i; simpl;
    [intros []|].
  destruct (extractTimestamps segment) as [[[s e] h]|] eqn:E; [|intros []].
  assert (Hrest : In c (captionsFrom (S i) rest) ->
    exists k segment0 hasValidTokens,
      nth_error (segment :: rest) k = Some segment0
      /\ Caption.Index c = i + k + 1
      /\ skipped segment0 = false
      /\ extractTimestamps segment0 =
         Some (Timestamp.From (Caption.Range c),
               Timestamp.To (Caption.Range c), hasValidTokens)
      /\ Caption.Text c = TrimSpace (Segment.Text segment0)).
  { intros Hin. destruct (IH _ Hin) as (k & sg & hv & Hk & Hi & Hrest).
    exists (S k), sg, hv. split; [exact Hk|]. split; [lia | exact Hrest]. }
  destruct ((s =? "") || (e =? "")) eqn:Hskip; [exact Hrest|].
  intros [<- | Hin]; [|auto].
  exists 0, segment, h; simpl. unfold skipped. rewrite E.
  repeat split; auto.
Qed.

(** Every segment that is not skipped yields a caption numbered by the
    segment's position. *)
Lemma captionsFrom_kept i segments k segment :
  nth_error segments k = Some segment ->
  skipped segment = false ->
  exists c, In c (captionsFrom i segments) /\ Caption.Index c = i + k + 1.
Proof.
  revert i k; induction segments as [|sg rest IH]; intros i k Hk Hkeep.
  - now destruct k.
  - simpl. destruct (extractTimestamps_total sg) as (s & e & h & E).
    rewrite E. destruct k as [|k]; simpl in Hk.
    + injection Hk as ->. unfold skipped in Hkeep. rewrite E in Hkeep.
      rewrite Hkeep. eexists; split; [now left | simpl; lia].
    + destruct (IH (S i) k Hk Hkeep) as (c & Hin & Hi).
      exists c. split; [|lia].
      destruct ((s =? "") || (e =? "")); [exact Hin | now right].
Qed.

Lemma captionsFrom_lower i segments :
  Forall (fun n => i < n) (map Caption.Index (captionsFrom i segments)).
Proof.
  apply Forall_forall. intros n Hn.
  apply in_map_iff in Hn as (c & <- & Hc).
  destruct (captionsFrom_origin _ _ _ Hc) as (k & _ & _ & _ & Hi & _). lia.
Qed.

(** The indices grow strictly along the output. *)
Lemma captionsFrom_increasing i segments :
  StronglySorted lt (map Caption.Index (captionsFrom i segments)).
Proof.
  revert i; induction segments as [|segment rest IH]; intros i; simpl;
    [constructor|].
  destruct (extractTimestamps segment) as [[[s e] h]|]; [|constructor].
  destruct ((s =? "") || (e =? "")); [apply IH|].
  simpl. constructor; [apply IH|].
  eapply Forall_impl; [|apply (captionsFrom_lower (S i))].
  simpl; intros; lia.
Qed.

(** Without skipped segment the indices are [i+1], [i+2], ... *)
Lemma captionsFrom_all_kept i segments :
  forallb (fun segment => negb (skipped segment)) segments = true ->
  map Caption.Index (captionsFrom i segments) = seq (i + 1) (length segments).
Proof.
  revert i; induction segments as [|segment rest IH]; intros i; simpl;
    [reflexivity|].
  intros H. apply andb_prop in H as [Hkeep Hrest].
  unfold skipped in Hkeep.
  destruct (extractTimestamps_total segment) as (s & e & h & E).
  rewrite E in *. apply negb_true_iff in Hkeep. rewrite Hkeep. simpl.
  rewrite (IH (S i) Hrest). do 2 f_equal; lia.
Qed.

Lemma neverDone_Background : neverDone Context.Background.
Proof. intros k. reflexivity. Qed.

(** C1, as the specification states it, fails: when the first segment
    is skipped, the only caption emitted is numbered 2, so the indices
    in the output do not start at 1. *)
Lemma caption_index_not_contiguous :
  render Context.Background
         (WhisperOutput.mk (Some [Examples.untimed; Examples.scenarioA]))
  = Ok ("2" ++ LF ++ "00:00:00,500 --> 00:00:02,000" ++ LF
        ++ "hello world" ++ LF ++ LF)
  /\ map Caption.Index (captions [Examples.untimed; Examples.scenarioA])
     <> seq 1 (length (captions [Examples.untimed; Examples.scenarioA])).
Proof. split; [reflexivity | discriminate]. Qed.

(** C1, amended.  The index of each emitted caption is the 1-based
    position of its segment in the document (a skipped segment keeps its
    number), and every segment that is not skipped has its caption.  So
    the indices in the output increase strictly, and they are 1, 2, ...
    without gap when no segment is skipped. *)
Theorem caption_index_is_segment_position ctx segments :
  neverDone ctx ->
  render ctx (WhisperOutput.mk (Some segments))
  = Ok (formatAll (captions segments))
  /\ (forall c, In c (captions segments) ->
        1 <= Caption.Index c
        /\ exists segment,
             nth_error segments (Caption.Index c - 1) = Some segment
             /\ skipped segment = false)
  /\ (forall k segment,
        nth_error segments k = Some segment -> skipped segment = false ->
        exists c, In c (captions segments) /\ Caption.Index c = k + 1)
  /\ StronglySorted lt (map Caption.Index (captions segments))
  /\ (forallb (fun segment => negb (skipped segment)) segments = true ->
      map Caption.Index (captions segments) = seq 1 (length segments)).
Proof.
  intros Hctx. split; [now apply render_captions|].
  split; [|split; [|split]].
  - intros c Hc.
    destruct (captionsFrom_origin _ _ _ Hc) as (k & sg & _ & Hk & Hi & Hs & _).
    simpl in Hi. split; [lia|]. exists sg.
    replace (Caption.Index c - 1) with k by lia. auto.
  - intros k sg Hk Hs. exact (captionsFrom_kept 0 _ _ _ Hk Hs).
  - apply captionsFrom_increasing.
  - intros Hall. exact (captionsFrom_all_kept 0 _ Hall).
Qed.

Lemma caption_index_is_segment_position_witness :
  neverDone Context.Background
  /\ StronglySorted lt
       (map Caption.Index (captions [Examples.untimed; Examples.scenarioA])).
Proof.
  split; [intros k; reflexivity|].
  apply (caption_index_is_segment_position Context.Background
           [Examples.untimed; Examples.scenarioA]).
  intros k; reflexivity.
Defined.

(** The loop itself returns no error other than the context's. *)
Lemma renderSegments_error ctx segments i srtBuilder e :
  renderSegments ctx i segments srtBuilder = Err e -> e = ErrContext.
Proof.
  revert i srtBuilder.
  induction segments as [|segment rest IH]; intros i b; simpl;
    [discriminate|].
  destruct (Context.Done ctx (S i)); [now intros [= <-]|].
  destruct (extractTimestamps segment) as [[[s t] h]|]; [|discriminate].
  destruct ((s =? "") || (t =? "")); apply IH.
Qed.

(** C5.  [render] fails with the missing-transcription error exactly
    when the transcription slice is nil; a slice that is present and
    empty renders to the empty text.  When the slice is nil,
    [processFile] returns that error and leaves the files and the output
    as they were. *)
Theorem render_missing_transcription :
  (forall ctx output,
      render ctx output = Err ErrMissingTranscription
      <-> WhisperOutput.Transcription output = None)
  /\ (forall ctx, render ctx (WhisperOutput.mk (Some [])) = Ok "")
  /\ (forall (env : Env) ctx jsonPath w byteValue,
        Context.Done ctx 0 = false ->
        ReadFile (files w) jsonPath = Some byteValue ->
        Unmarshal byteValue = Some (WhisperOutput.mk None) ->
        processFile ctx jsonPath w = (w, Err ErrMissingTranscription)).
Proof.
  split; [|split].
  - intros ctx [[segments|]]; unfold render; simpl; [|tauto].
    split; [|discriminate].
    intros H. apply renderSegments_error in H. discriminate.
  - reflexivity.
  - intros env ctx jsonPath w byteValue Hctx Hread Hjson.
    unfold processFile, dataToWrite. now rewrite Hctx, Hread, Hjson.
Qed.

Lemma render_missing_transcription_witness :
  processFile (env := SampleEnv.env) Context.Background "/w/a.json"
    (mkWorld (env := SampleEnv.env) SampleEnv.disk [])
  = (mkWorld (env := SampleEnv.env) SampleEnv.disk [],
     Err ErrMissingTranscription).
Proof.
  destruct render_missing_transcription as (_ & _ & Hprocess).
  apply (Hprocess SampleEnv.env Context.Background "/w/a.json"
           (mkWorld (env := SampleEnv.env) SampleEnv.disk []) "{}");
    reflexivity.
Defined.

Lemma string_of_uint_digits d :
  forallb isDigit (list_ascii_of_string (NilEmpty.string_of_uint d)) = true.
Proof. induction d; simpl; auto. Qed.

Lemma to_uint_not_Nil n : Nat.to_uint n <> Decimal.Nil.
Proof.
  rewrite <- (DecimalNat.Unsigned.of_to n) at 1.
  rewrite DecimalNat.Unsigned.to_of. unfold Decimal.unorm.
  destruct (Decimal.nzhead (Nat.to_uint n)); discriminate.
Qed.

(** The index line is a decimal number. *)
Lemma Sprintf_d_isNumber n : isNumber (Sprintf_d n) = true.
Proof.
  unfold isNumber, Sprintf_d. rewrite string_of_uint_digits, andb_true_r.
  pose proof (to_uint_not_Nil n) as H.
  destruct (Nat.to_uint n); simpl; congruence.
Qed.

(** The layout of one block, written out. *)
Lemma format_layout c :
  format c =
  Sprintf_d (Caption.Index c) ++ LF
  ++ Timestamp.From (Caption.Range c) ++ " --> "
  ++ Timestamp.To (Caption.Range c) ++ LF
  ++ Caption.Text c ++ LF
  ++ LF.
Proof. unfold format. now rewrite !append_assoc. Qed.

(** C7.  The output is the sequence of the blocks of the captions and
    nothing else.  A block is the index line, the line
    [start --> end], the text of the segment without the white space at
    its two ends, and an empty line.  Nothing follows the last block,
    and without caption the output is empty. *)
Theorem caption_block_layout ctx segments :
  neverDone ctx ->
  render ctx (WhisperOutput.mk (Some segments))
  = Ok (formatAll (captions segments))
  /\ (forall c, In c (captions segments) ->
        format c =
          Sprintf_d (Caption.Index c) ++ LF
          ++ Timestamp.From (Caption.Range c) ++ " --> "
          ++ Timestamp.To (Caption.Range c) ++ LF
          ++ Caption.Text c ++ LF
          ++ LF
        /\ isNumber (Sprintf_d (Caption.Index c)) = true
        /\ exists segment hasValidTokens lead trail,
             nth_error segments (Caption.Index c - 1) = Some segment
             /\ extractTimestamps segment =
                Some (Timestamp.From (Caption.Range c),
                      Timestamp.To (Caption.Range c), hasValidTokens)
             /\ Caption.Text c = TrimSpace (Segment.Text segment)
             /\ allSpace lead /\ allSpace trail
             /\ list_ascii_of_string (Segment.Text segment) =
                (lead ++ list_ascii_of_string (Caption.Text c) ++ trail)%list
             /\ ~ startsWithSpace (list_ascii_of_string (Caption.Text c))
             /\ ~ endsWithSpace (list_ascii_of_string (Caption.Text c)))
  /\ (forall cs c, captions segments = (cs ++ [c])%list ->
        render ctx (WhisperOutput.mk (Some segments))
        = Ok (formatAll cs ++ format c))
  /\ (captions segments = [] ->
      render ctx (WhisperOutput.mk (Some segments)) = Ok "").
Proof.
  intros Hctx. rewrite (render_captions _ _ Hctx).
  split; [reflexivity|]. split; [|split].
  - intros c Hc. split; [apply format_layout|].
    split; [apply Sprintf_d_isNumber|].
    destruct (captionsFrom_origin _ _ _ Hc)
      as (k & sg & h & Hk & Hi & _ & Ht & Htext).
    destruct (TrimSpace_spec (Segment.Text sg))
      as (lead & trail & Hlead & Htrail & Esplit & Hstart & Hend).
    exists sg, h, lead, trail. simpl in Hi.
    replace (Caption.Index c - 1) with k by lia.
    rewrite Htext. repeat split; assumption.
  - intros cs c ->. rewrite formatAll_app. simpl.
    now rewrite append_nil_r.
  - now intros ->.
Qed.

Lemma caption_block_layout_witness :
  render Context.Background (WhisperOutput.mk (Some [Examples.scenarioD]))
  = Ok ("1" ++ LF ++ "00:00:04,000 --> 00:00:05,000" ++ LF
        ++ "hi" ++ LF ++ LF).
Proof.
  destruct (caption_block_layout Context.Background [Examples.scenarioD])
    as (_ & _ & Hlast & _).
  - intros k; reflexivity.
  - apply (Hlast [] (Caption.mk 1 (Examples.ts "00:00:04,000" "00:00:05,000")
                                "hi")).
    reflexivity.
Defined.

(** ** Text and timing are independent *)

Lemma captionsFrom_app i segments1 segments2 :
  captionsFrom i (segments1 ++ segments2)%list =
  (captionsFrom i segments1
   ++ captionsFrom (i + length segments1) segments2)%list.
Proof.
  revert i; induction segments1 as [|segment rest IH]; intros i; simpl.
  - now rewrite Nat.add_0_r.
  - destruct (extractTimestamps_total segment) as (s & e & h & E).
    rewrite E, IH. replace (S i + length rest) with (i + S (length rest))
      by lia.
    now destruct ((s =? "") || (e =? "")).
Qed.


(** [extractTimestamps] does not read the text of the segment. *)
Lemma extractTimestamps_ignores_text timestamps text text' tokens :
  extractTimestamps (Segment.mk timestamps text tokens) =
  extractTimestamps (Segment.mk timestamps text' tokens).
Proof. reflexivity. Qed.

Lemma skipped_ignores_text timestamps text text' tokens :
  skipped (Segment.mk timestamps text tokens) =
  skipped (Segment.mk timestamps text' tokens).
Proof. reflexivity. Qed.

(** C10.  Whether a segment is skipped is decided by its timestamps and
    tokens alone, whatever its text.  A segment whose resolved start and
    end are not empty and whose text is empty or white space only is
    emitted: the loop appends its block, whose text line is empty, to
    the builder, and the text rendered for a document contains that
    block, numbered by the position of the segment, between the blocks
    of the segments before it and those of the segments after it. *)
Theorem blank_text_is_emitted segment startTime endTime hasValidTokens :
  extractTimestamps segment = Some (startTime, endTime, hasValidTokens) ->
  startTime <> "" ->
  endTime <> "" ->
  allSpace (list_ascii_of_string (Segment.Text segment)) ->
  (forall text,
      skipped (Segment.mk (Segment.Timestamps segment) text
                          (Segment.Tokens segment)) = false)
  /\ (forall i rest,
        captionsFrom i (segment :: rest) =
        Caption.mk (i + 1) (Timestamp.mk startTime endTime) ""
        :: captionsFrom (S i) rest)
  /\ (forall ctx i rest srtBuilder,
        Context.Done ctx (S i) = false ->
        renderSegments ctx i (segment :: rest) srtBuilder =
        renderSegments ctx (S i) rest
          (srtBuilder
           ++ (Sprintf_d (i + 1) ++ LF
               ++ startTime ++ " --> " ++ endTime ++ LF
               ++ "" ++ LF
               ++ LF)))
  /\ (forall ctx i srtBuilder,
        Context.Done ctx (S i) = false ->
        renderSegments ctx i [segment] srtBuilder =
        Ok (srtBuilder
            ++ (Sprintf_d (i + 1) ++ LF
                ++ startTime ++ " --> " ++ endTime ++ LF
                ++ "" ++ LF
                ++ LF)))
  /\ (forall ctx before after,
        neverDone ctx ->
        render ctx (WhisperOutput.mk (Some (before ++ segment :: after)%list))
        = Ok (formatAll (captions before)
              ++ (Sprintf_d (length before + 1) ++ LF
                  ++ startTime ++ " --> " ++ endTime ++ LF
                  ++ "" ++ LF
                  ++ LF)
              ++ formatAll (captionsFrom (S (length before)) after))).
Proof.
  intros E Hs He Hblank.
  apply String.eqb_neq in Hs, He.
  assert (Hkeep : (startTime =? "") || (endTime =? "") = false)
    by now rewrite Hs, He.
  pose proof (TrimSpace_allSpace _ Hblank) as Htrim.
  assert (Hcaptions : forall i rest,
             captionsFrom i (segment :: rest) =
             Caption.mk (i + 1) (Timestamp.mk startTime endTime) ""
             :: captionsFrom (S i) rest).
  { intros i rest. simpl. now rewrite E, Hkeep, Htrim. }
  assert (Hloop : forall ctx i rest srtBuilder,
             Context.Done ctx (S i) = false ->
             renderSegments ctx i (segment :: rest) srtBuilder =
             renderSegments ctx (S i) rest
               (srtBuilder
                ++ (Sprintf_d (i + 1) ++ LF
                    ++ startTime ++ " --> " ++ endTime ++ LF
                    ++ "" ++ LF
                    ++ LF))).
  { intros ctx i rest b Hctx. simpl. rewrite Hctx, E, Hkeep.
    unfold block. rewrite Htrim. now rewrite !append_assoc. }
  split; [|split; [exact Hcaptions|split; [exact Hloop|split]]].
  - intros text. destruct segment as [timestamps text0 tokens]; simpl.
    rewrite (skipped_ignores_text timestamps text text0 tokens).
    unfold skipped. now rewrite E.
  - intros ctx i b Hctx. now rewrite (Hloop ctx i [] b Hctx).
  - intros ctx before after Hctx.
    rewrite (render_captions _ _ Hctx). unfold captions.
    rewrite captionsFrom_app, formatAll_app. simpl (0 + length before).
    rewrite Hcaptions. simpl formatAll. rewrite format_layout. simpl.
    now rewrite !append_assoc.
Qed.

Lemma blank_text_is_emitted_witness :
  render Context.Background (WhisperOutput.mk (Some [Examples.blank]))
  = Ok ("1" ++ LF ++ "00:00:13,000 --> 00:00:14,000" ++ LF
        ++ "" ++ LF ++ LF).
Proof.
  destruct (blank_text_is_emitted Examples.blank
              "00:00:13,000" "00:00:14,000" true eq_refl)
    as (_ & _ & _ & _ & Hrender).
  - discriminate.
  - discriminate.
  - change (list_ascii_of_string (Segment.Text Examples.blank))
      with ([" "%char] ++ [ascii_of_nat 9]
            ++ [ascii_of_nat 227; ascii_of_nat 128; ascii_of_nat 128]
            ++ [])%list.
    repeat (constructor; [vm_compute; tauto|]). constructor.
  - exact (Hrender Context.Background [] [] (fun k => eq_refl)).
Defined.

(** ** Noise markers *)






Lemma string_of_list_ascii_app l1 l2 :
  string_of_list_ascii (l1 ++ l2)%list =
  string_of_list_ascii l1 ++ string_of_list_ascii l2.
Proof. induction l1 as [|c l1 IH]; simpl; [reflexivity | now rewrite IH]. Qed.





(** ** Determinism *)

(** C8.  Rendering is a function of the document: two runs that are not
    cancelled give the same result on equal documents, and the bytes
    [processFile] hands to [os.WriteFile] depend on nothing but the
    content of the input file.  Before that write a call changes
    neither the files nor the output. *)
Theorem render_deterministic (env : Env) ctx1 ctx2 :
  neverDone ctx1 ->
  neverDone ctx2 ->
  (forall output1 output2,
      output1 = output2 -> render ctx1 output1 = render ctx2 output2)
  /\ (forall jsonPath fs1 fs2,
        ReadFile fs1 jsonPath = ReadFile fs2 jsonPath ->
        dataToWrite ctx1 jsonPath fs1 = dataToWrite ctx2 jsonPath fs2)
  /\ (forall ctx jsonPath w w' e,
        processFile ctx jsonPath w = (w', Err e) ->
        e <> ErrWriteFile -> w' = w).
Proof.
  intros H1 H2.
  assert (Hrender : forall output, render ctx1 output = render ctx2 output).
  { intros [[segments|]]; [|reflexivity].
    now rewrite !render_captions. }
  split; [now intros ? ? <-|]. split.
  - intros jsonPath fs1 fs2 Hread. unfold dataToWrite.
    rewrite H1, H2, Hread.
    destruct (ReadFile fs2 jsonPath) as [byteValue|]; [|reflexivity].
    destruct (Unmarshal byteValue) as [output|]; [|reflexivity].
    now rewrite Hrender.
  - intros ctx jsonPath w w' e. unfold processFile.
    destruct (dataToWrite ctx jsonPath (files w)) as [data|e'|].
    + destruct (WriteFile (files w) (srtPathOf jsonPath) data) as [fs' [|]];
        [discriminate|].
      intros [= _ <-] He. now elim He.
    + now intros [= <- _].
    + discriminate.
Qed.

Lemma render_deterministic_witness :
  dataToWrite (env := SampleEnv.env) Context.Background "/w/b.json"
    SampleEnv.disk =
  dataToWrite (env := SampleEnv.env) Context.Background "/w/b.json"
    (("/w/a.srt", "") :: SampleEnv.disk).
Proof.
  destruct (render_deterministic SampleEnv.env
              Context.Background Context.Background)
    as (_ & Hdata & _).
  - intros k; reflexivity.
  - intros k; reflexivity.
  - apply Hdata. reflexivity.
Defined.

(** ** The worker pool *)

Section Pool.
Context {env : Env}.
Local Open Scope list_scope.

Lemma renderSegments_no_panic ctx segments i srtBuilder :
  renderSegments ctx i segments srtBuilder <> Panic.
Proof.
  revert i srtBuilder.
  induction segments as [|segment rest IH]; intros i b; simpl;
    [discriminate|].
  destruct (Context.Done ctx (S i)); [discriminate|].
  destruct (extractTimestamps_total segment) as (s & e & h & E).
  rewrite E. destruct ((s =? "") || (e =? ""))%string; apply IH.
Qed.

Lemma dataToWrite_no_panic ctx jsonPath fs :
  dataToWrite ctx jsonPath fs <> Panic.
Proof.
  unfold dataToWrite.
  destruct (Context.Done ctx 0); [discriminate|].
  destruct (ReadFile fs jsonPath) as [byteValue|]; [|discriminate].
  destruct (Unmarshal byteValue) as [[[segments|]]|]; try discriminate.
  unfold render; simpl.
  pose proof (renderSegments_no_panic ctx segments 0 "") as H.
  destruct (renderSegments ctx 0 segments ""); congruence.
Qed.

(** [processFile] never panics. *)
Lemma processFile_no_panic ctx jsonPath w :
  snd (processFile ctx jsonPath w) <> Panic.
Proof.
  unfold processFile.
  pose proof (dataToWrite_no_panic ctx jsonPath (files w)) as H.
  destruct (dataToWrite ctx jsonPath (files w)) as [data|e|];
    [|discriminate|congruence].
  destruct (WriteFile (files w) (srtPathOf jsonPath) data) as [fs' [|]];
    discriminate.
Qed.

(** What a call of [processFile] prints: the success message when it
    returns no error, nothing otherwise. *)
Lemma processFile_output ctx jsonPath w w' r :
  processFile ctx jsonPath w = (w', r) ->
  output w' =
  output w ++ match r with Ok _ => [EvSuccess jsonPath] | _ => [] end.
Proof.
  unfold processFile.
  destruct (dataToWrite ctx jsonPath (files w)) as [data|e|].
  - destruct (WriteFile (files w) (srtPathOf jsonPath) data) as [fs' [|]];
      intros [= <- <-]; simpl; [reflexivity | now rewrite app_nil_r].
  - intros [= <- <-]. now rewrite app_nil_r.
  - intros [= <- <-]. now rewrite app_nil_r.
Qed.

(** The files after a call: those before it, or what [os.WriteFile]
    made of them at the path of the subtitle file. *)
Lemma processFile_files ctx jsonPath w w' r :
  processFile ctx jsonPath w = (w', r) ->
  files w' = files w
  \/ exists data,
       dataToWrite ctx jsonPath (files w) = Ok data
       /\ files w' = fst (WriteFile (files w) (srtPathOf jsonPath) data).
Proof.
  unfold processFile.
  destruct (dataToWrite ctx jsonPath (files w)) as [data|e|].
  - destruct (WriteFile (files w) (srtPathOf jsonPath) data)
      as [fs' ok] eqn:E.
    destruct ok; intros [= <- <-]; right; exists data; rewrite E; auto.
  - intros [= <- <-]. now left.
  - intros [= <- <-]. now left.
Qed.

(** The result of a call, from the data it computes. *)
Lemma processFile_result ctx jsonPath w w' r :
  processFile ctx jsonPath w = (w', r) ->
  match r with
  | Ok _ => exists data, dataToWrite ctx jsonPath (files w) = Ok data
  | Err e =>
      e = ErrWriteFile \/ dataToWrite ctx jsonPath (files w) = Err e
  | Panic => False
  end.
Proof.
  unfold processFile.
  destruct (dataToWrite ctx jsonPath (files w)) as [data|e|] eqn:E.
  - destruct (WriteFile (files w) (srtPathOf jsonPath) data) as [fs' [|]];
      intros [= <- <-]; eauto.
  - intros [= <- <-]. now right.
  - now elim (dataToWrite_no_panic ctx jsonPath (files w)).
Qed.

(** [dataToWrite] reads nothing but the input file. *)
Lemma dataToWrite_read ctx jsonPath fs1 fs2 :
  ReadFile fs1 jsonPath = ReadFile fs2 jsonPath ->
  dataToWrite ctx jsonPath fs1 = dataToWrite ctx jsonPath fs2.
Proof. unfold dataToWrite. now intros ->. Qed.

Lemma started_app out1 out2 :
  started (out1 ++ out2) = started out1 ++ started out2.
Proof. apply flat_map_app. Qed.

Lemma reported_app out1 out2 :
  reported (out1 ++ out2) = reported out1 ++ reported out2.
Proof. apply flat_map_app. Qed.

Lemma busy_split before w after :
  busy (before ++ w :: after) = busy before ++ busyPath w ++ busy after.
Proof. unfold busy. now rewrite flat_map_app. Qed.

Lemma allReturned_false ws :
  allReturned ws = false ->
  exists before w after, ws = before ++ w :: after /\ w <> Returned.
Proof.
  induction ws as [|w ws IH]; simpl; [discriminate|].
  destruct w; try (intros _; exists [], Idle, ws; split;
                   [reflexivity | discriminate]).
  - intros _. exists [], (Busy jsonPath), ws. split;
      [reflexivity | discriminate].
  - intros H. destruct (IH H) as (before & w & after & -> & Hw).
    now exists (Returned :: before), w, after.
Qed.

Lemma allReturned_split before w after :
  allReturned (before ++ w :: after) = true -> w = Returned.
Proof.
  unfold allReturned. rewrite forallb_app; simpl.
  intros H. apply andb_prop in H as [_ H]. apply andb_prop in H as [H _].
  now destruct w.
Qed.


Lemma notReturned_split before w after :
  length (filter (fun w => negb match w with Returned => true | _ => false end)
                 (before ++ w :: after)) =
  length (filter (fun w => negb match w with Returned => true | _ => false end)
                 before)
  + (match w with Returned => 0 | _ => 1 end)
  + length (filter (fun w => negb match w with Returned => true
                                              | _ => false end) after).
Proof.
  rewrite filter_app, length_app. simpl. destruct w; simpl; lia.
Qed.

(** Every transition brings the run nearer to its end. *)
Lemma step_remaining numJobs st st' :
  step numJobs st st' -> remaining st' < remaining st.
Proof.
  intros [s s' [] | id s s' []]; unfold remaining; simpl;
    repeat match goal with
           | H : mainAt _ = _ |- _ => rewrite H
           | H : jobs _ = _ |- _ => rewrite H
           | H : workers _ = _ |- _ => rewrite H
           end;
    rewrite ?busy_split, ?notReturned_split, ?length_app; simpl;
    try lia.
  all: destruct (mainAt st); simpl; lia.
Qed.

Lemma run_remaining numJobs n st st' :
  run numJobs n st st' -> n + remaining st' <= remaining st.
Proof.
  induction 1 as [st | n st st' st'' _ IH Hstep]; [lia|].
  apply step_remaining in Hstep. lia.
Qed.

Lemma perm_receive (R bb ba S : list string) p :
  Permutation (R ++ bb ++ ba) S ->
  Permutation (R ++ bb ++ p :: ba) (S ++ [p]).
Proof.
  intros H. apply Permutation_trans with (p :: (R ++ bb) ++ ba).
  - rewrite app_assoc. symmetry. apply Permutation_middle.
  - apply Permutation_trans with (p :: S).
    + constructor. now rewrite <- app_assoc.
    + apply Permutation_cons_append.
Qed.

Lemma perm_report (R bb ba S : list string) p :
  Permutation (R ++ bb ++ p :: ba) S ->
  Permutation ((R ++ [p]) ++ bb ++ ba) S.
Proof.
  intros H. eapply Permutation_trans; [|exact H].
  rewrite <- app_assoc. simpl. apply Permutation_app_head.
  apply Permutation_middle.
Qed.

Section Invariant.
Variable jsonPaths : list string.
Variable numWorkers : nat.

Lemma initial_inv fs :
  poolInv jsonPaths numWorkers (initial jsonPaths numWorkers fs).
Proof.
  split; simpl.
  - reflexivity.
  - apply repeat_length.
  - reflexivity.
  - induction numWorkers; simpl; [constructor | assumption].
  - intros H. apply repeat_spec in H. discriminate.
  - discriminate.
Qed.

Lemma step_inv st st' :
  poolInv jsonPaths numWorkers st ->
  step (length jsonPaths) st st' ->
  poolInv jsonPaths numWorkers st'.
Proof.
  intros [Halive Hws Hjobs Hbusy Hret Hfin] Hstep.
  unfold pending, closed in *.
  destruct Hstep as
    [s s' [st p rest _ Hmain Hcap
          |st _ Hmain
          |st _ Hmain Hall]
    |id s s' [st before after p rest _ Hw Hj
             |st before after _ Hw Hj Hclosed
             |st before after p w' _ Hw Hcall
             |st before after p w' e _ Hw Hcall
             |st before after p w' _ Hw Hcall]];
    try rewrite Hmain in *; try rewrite Hw in *; try rewrite Hj in *.
  - (* send *)
    split; simpl.
    + reflexivity.
    + exact Hws.
    + now rewrite <- app_assoc.
    + exact Hbusy.
    + intros H. now destruct (Hret H).
    + discriminate.
  - (* close *)
    split; simpl.
    + reflexivity.
    + exact Hws.
    + exact Hjobs.
    + exact Hbusy.
    + intros H. now destruct (Hret H).
    + discriminate.
  - (* wait *)
    split; simpl.
    + reflexivity.
    + exact Hws.
    + rewrite started_app; simpl. now rewrite !app_nil_r in *.
    + rewrite started_app, reported_app; simpl. now rewrite !app_nil_r.
    + intros H. destruct (Hret H). auto.
    + intros _. split; [exact Hall|]. now exists (output (world st)).
  - (* receive *)
    split; simpl.
    + reflexivity.
    + rewrite !length_app in *. exact Hws.
    + rewrite started_app; simpl. now rewrite <- app_assoc.
    + rewrite started_app; simpl. rewrite reported_app; simpl.
      rewrite app_nil_r, busy_split in *. simpl in *.
      now apply perm_receive.
    + intros H. assert (H' : In Returned (before ++ Idle :: after)).
      { apply in_app_or in H as [H | [H | H]]; try discriminate;
          apply in_or_app; [now left | now right; right]. }
      now destruct (Hret H').
    + intros H. destruct (Hfin H) as [Hall _].
      apply allReturned_split in Hall. discriminate.
  - (* return *)
    split; simpl.
    + reflexivity.
    + rewrite !length_app in *. exact Hws.
    + exact Hjobs.
    + now rewrite busy_split in *.
    + auto.
    + intros H. destruct (Hfin H) as [Hall _].
      apply allReturned_split in Hall. discriminate.
  - (* done *)
    pose proof (processFile_output _ _ _ _ _ Hcall) as Hout.
    split; simpl; try rewrite Hout.
    + reflexivity.
    + rewrite !length_app in *. exact Hws.
    + rewrite started_app; simpl. now rewrite app_nil_r.
    + rewrite started_app, reported_app; simpl.
      rewrite app_nil_r, busy_split in *. simpl in *.
      now apply perm_report.
    + intros H. apply Hret.
      apply in_app_or in H as [H | [H | H]]; try discriminate;
        apply in_or_app; [now left | now right; right].
    + intros H. destruct (Hfin H) as [Hall _].
      apply allReturned_split in Hall. discriminate.
  - (* failed *)
    pose proof (processFile_output _ _ _ _ _ Hcall) as Hout.
    split; simpl; try rewrite Hout.
    + reflexivity.
    + rewrite !length_app in *. exact Hws.
    + rewrite !started_app; simpl. now rewrite !app_nil_r.
    + rewrite !started_app, !reported_app; simpl.
      rewrite !app_nil_r, busy_split in *. simpl in *.
      now apply perm_report.
    + intros H. apply Hret.
      apply in_app_or in H as [H | [H | H]]; try discriminate;
        apply in_or_app; [now left | now right; right].
    + intros H. destruct (Hfin H) as [Hall _].
      apply allReturned_split in Hall. discriminate.
  - (* panic *)
    pose proof (processFile_no_panic Context.Background p (world st)) as H.
    rewrite Hcall in H. now elim H.
Qed.

Lemma run_inv fs n st :
  run (length jsonPaths) n (initial jsonPaths numWorkers fs) st ->
  poolInv jsonPaths numWorkers st.
Proof.
  intros Hrun. remember (initial jsonPaths numWorkers fs) as st0.
  induction Hrun as [st | n st st' st'' _ IH Hstep].
  - subst. apply initial_inv.
  - eapply step_inv; eauto.
Qed.
Lemma allReturned_busy ws : allReturned ws = true -> busy ws = [].
Proof.
  induction ws as [|w ws IH]; simpl; [reflexivity|].
  destruct w; try discriminate. exact IH.
Qed.

Lemma allReturned_In ws :
  allReturned ws = true -> 0 < length ws -> In Returned ws.
Proof.
  destruct ws as [|w ws]; simpl; [lia|].
  destruct w; try discriminate. now left.
Qed.

(** A path a worker is busy with is one of the paths of the run. *)
Lemma busy_in_jsonPaths st before after p :
  poolInv jsonPaths numWorkers st ->
  workers st = before ++ Busy p :: after ->
  In p jsonPaths.
Proof.
  intros [_ _ Hjobs Hbusy _ _] Hw.
  eapply Permutation_in; [exact Hjobs|]. apply in_or_app; left.
  eapply Permutation_in; [exact Hbusy|]. apply in_or_app; right.
  rewrite Hw, busy_split. apply in_or_app; right. now left.
Qed.

(** Until [main] is past its last line, some goroutine can move. *)
Lemma pool_progress st :
  poolInv jsonPaths numWorkers st ->
  mainAt st <> Finished ->
  exists st', step (length jsonPaths) st st'.
Proof.
  intros [Halive Hws Hjobs Hbusy Hret Hfin] Hmain.
  destruct (mainAt st) as [[|p rest]| |] eqn:Emain.
  - eexists. now apply step_main, main_close.
  - eexists. apply step_main, (main_send _ st p rest Halive Emain).
    apply Permutation_length in Hjobs. unfold pending in Hjobs.
    rewrite Emain, !length_app in Hjobs. simpl in Hjobs. lia.
  - destruct (allReturned (workers st)) eqn:Hall.
    + eexists. now apply step_main, main_wait.
    + destruct (allReturned_false _ Hall) as (before & w & after & Hw & Hnot).
      destruct w as [|p|]; [| |now elim Hnot].
      * destruct (jobs st) as [|p rest] eqn:Hj.
        -- eexists. eapply step_worker.
           apply (worker_return st before after Halive Hw Hj).
           unfold closed. now rewrite Emain.
        -- eexists. eapply step_worker.
           exact (worker_receive st before after p rest Halive Hw Hj).
      * destruct (processFile Context.Background p (world st))
          as [w' [[]|e|]] eqn:Hcall.
        -- eexists. eapply step_worker.
           exact (worker_done st before after p w' Halive Hw Hcall).
        -- eexists. eapply step_worker.
           exact (worker_failed st before after p w' e Halive Hw Hcall).
        -- eexists. eapply step_worker.
           exact (worker_panic st before after p w' Halive Hw Hcall).
  - now elim Hmain.
Qed.

(** When [main] is past its last line, every path has been begun and
    reported once, and the count is the last thing printed. *)
Lemma pool_finished st :
  0 < numWorkers ->
  poolInv jsonPaths numWorkers st ->
  mainAt st = Finished ->
  Permutation (started (output (world st))) jsonPaths
  /\ Permutation (reported (output (world st))) jsonPaths
  /\ exists out, output (world st) = out ++ [EvDone (length jsonPaths)].
Proof.
  intros Hpos [Halive Hws Hjobs Hbusy Hret Hfin] Hmain.
  destruct (Hfin Hmain) as [Hall Hout].
  destruct Hret as [Hj _]; [apply allReturned_In; [exact Hall | lia]|].
  unfold pending in Hjobs.
  rewrite Hj, Hmain, !app_nil_r in Hjobs.
  rewrite (allReturned_busy _ Hall), app_nil_r in Hbusy.
  split; [exact Hjobs|]. split; [|exact Hout].
  eapply Permutation_trans; eassumption.
Qed.

Section Independence.
Variable fs0 : FS.

(** A write leaves the other files as they are, and no subtitle file
    is one of the input files. *)
Hypothesis write_frame :
  forall fs path data q,
    q <> path -> ReadFile (fst (WriteFile fs path data)) q = ReadFile fs q.
Hypothesis srt_fresh :
  forall p q, In p jsonPaths -> In q jsonPaths -> srtPathOf p <> q.

Lemma processFile_reads p w w' r q :
  In p jsonPaths -> In q jsonPaths ->
  processFile Context.Background p w = (w', r) ->
  ReadFile (files w') q = ReadFile (files w) q.
Proof.
  intros Hp Hq Hcall.
  destruct (processFile_files _ _ _ _ _ Hcall) as [-> | (data & _ & ->)];
    [reflexivity|].
  apply write_frame. intros ->. exact (srt_fresh p _ Hp Hq eq_refl).
Qed.

Lemma step_reads st st' q :
  poolInv jsonPaths numWorkers st ->
  step (length jsonPaths) st st' ->
  In q jsonPaths ->
  ReadFile (files (world st')) q = ReadFile (files (world st)) q.
Proof.
  intros Hinv Hstep Hq.
  destruct Hstep as
    [s s' [st p rest _ Hmain Hcap
          |st _ Hmain
          |st _ Hmain Hall]
    |id s s' [st before after p rest _ Hw Hj
             |st before after _ Hw Hj Hclosed
             |st before after p w' _ Hw Hcall
             |st before after p w' e _ Hw Hcall
             |st before after p w' _ Hw Hcall]];
    unfold emit; simpl; try reflexivity;
    pose proof (busy_in_jsonPaths _ _ _ _ Hinv Hw) as Hp;
    exact (processFile_reads _ _ _ _ _ Hp Hq Hcall).
Qed.

Lemma step_faithful st st' :
  poolInv jsonPaths numWorkers st ->
  (forall q, In q jsonPaths ->
             ReadFile (files (world st)) q = ReadFile fs0 q) ->
  step (length jsonPaths) st st' ->
  faithful fs0 st -> faithful fs0 st'.
Proof.
  intros Hinv Hreads Hstep [Herr Hok].
  destruct Hstep as
    [s s' [st p rest _ Hmain Hcap
          |st _ Hmain
          |st _ Hmain Hall]
    |id s s' [st before after p rest _ Hw Hj
             |st before after _ Hw Hj Hclosed
             |st before after p w' _ Hw Hcall
             |st before after p w' e _ Hw Hcall
             |st before after p w' _ Hw Hcall]];
    try (split; simpl; assumption);
    try (split; simpl; intros; 
         match goal with
         | H : In _ (_ ++ [_]) |- _ =>
             apply in_app_or in H as [H | [H | []]]; [eauto | discriminate]
         end).
  - (* done *)
    pose proof (busy_in_jsonPaths _ _ _ _ Hinv Hw) as Hp.
    pose proof (processFile_output _ _ _ _ _ Hcall) as Hout.
    pose proof (processFile_result _ _ _ _ _ Hcall) as (data & Hdata).
    rewrite (dataToWrite_read _ _ _ fs0 (Hreads _ Hp)) in Hdata.
    split; simpl; rewrite Hout.
    + intros k q e H. apply in_app_or in H as [H | [H | []]];
        [eauto | discriminate].
    + intros q H. apply in_app_or in H as [H | [[= <-] | []]]; eauto.
  - (* failed *)
    pose proof (busy_in_jsonPaths _ _ _ _ Hinv Hw) as Hp.
    pose proof (processFile_output _ _ _ _ _ Hcall) as Hout.
    pose proof (processFile_result _ _ _ _ _ Hcall) as Hres.
    simpl in Hres.
    rewrite (dataToWrite_read _ _ _ fs0 (Hreads _ Hp)) in Hres.
    split; simpl; rewrite Hout, app_nil_r.
    + intros k q e' H. apply in_app_or in H as [H | [[= <- <- <-] | []]];
        eauto.
    + intros q H. apply in_app_or in H as [H | [H | []]];
        [eauto | discriminate].
  - (* panic *)
    pose proof (processFile_no_panic Context.Background p (world st)) as H.
    rewrite Hcall in H. now elim H.
Qed.

(** In every state of a run each input file reads as at the start, and
    the output tells of each task what the task does alone. *)
Lemma run_independent n st :
  run (length jsonPaths) n (initial jsonPaths numWorkers fs0) st ->
  (forall q, In q jsonPaths ->
             ReadFile (files (world st)) q = ReadFile fs0 q)
  /\ faithful fs0 st.
Proof.
  intros Hrun. remember (initial jsonPaths numWorkers fs0) as st0.
  induction Hrun as [st | n st st' st'' Hrun IH Hstep].
  - subst. split; [reflexivity|]. split; simpl; intros; contradiction.
  - specialize (IH Heqst0) as [Hreads Hfaith].
    assert (Hinv : poolInv jsonPaths numWorkers st')
      by (subst; eapply run_inv; eauto).
    split.
    + intros q Hq. rewrite (step_reads _ _ _ Hinv Hstep Hq). auto.
    + eapply step_faithful; eauto.
Qed.
End Independence.
End Invariant.

Lemma run_front numJobs n st st' st'' :
  step numJobs st st' -> run numJobs n st' st'' -> run numJobs (S n) st st''.
Proof.
  intros Hstep Hrun. induction Hrun as [st' | n st' s1 s2 _ IH Hs].
  - eapply run_step; [apply run_refl | exact Hstep].
  - eapply run_step; [exact (IH Hstep) | exact Hs].
Qed.
End Pool.

Lemma remaining_initial (env : Env) jsonPaths numWorkers fs :
  remaining (initial jsonPaths numWorkers fs) =
  2 + 3 * length jsonPaths + numWorkers.
Proof.
  unfold remaining, initial; simpl.
  assert (H : length (busy (repeat Idle numWorkers)) = 0
              /\ length (filter (fun w => negb match w with
                                               | Returned => true
                                               | _ => false
                                               end)
                                (repeat Idle numWorkers)) = numWorkers).
  { induction numWorkers as [|k [IH1 IH2]]; simpl; [auto|].
    split; [exact IH1 | now rewrite IH2]. }
  destruct H as [-> ->]. lia.
Qed.

(** A call that fails before the write leaves the world as it was. *)
Lemma processFile_early_error (env : Env) ctx jsonPath w w' e :
  processFile ctx jsonPath w = (w', Err e) ->
  e <> ErrWriteFile -> w' = w.
Proof.
  unfold processFile.
  destruct (dataToWrite ctx jsonPath (files w)) as [data|e'|].
  - destruct (WriteFile (files w) (srtPathOf jsonPath) data) as [fs' [|]];
      [discriminate|].
    intros [= _ <-] He. now elim He.
  - now intros [= <- _].
  - discriminate.
Qed.

(** C9.  In every run of the pool on a non-empty list of paths with at
    least one worker, whatever tasks fail: no goroutine panics; a failed task is logged and its
    worker goes back to the channel; some goroutine can move until
    [main] has printed the count, which happens within a bounded number
    of transitions; by then every path has been begun once and reported
    once.  A task that fails before its write changes nothing, and when
    writes leave other files alone and no subtitle file is an input
    file, every task reads, parses and renders as it does alone on the
    initial files. *)
Theorem worker_pool_isolates_failures
    (env : Env) jsonPaths numWorkers fs n st :
  jsonPaths <> [] ->
  0 < numWorkers ->
  run (length jsonPaths) n (initial jsonPaths numWorkers fs) st ->
  crashed st = false
  /\ n + remaining st <= 2 + 3 * length jsonPaths + numWorkers
  /\ (mainAt st <> Finished -> exists st', step (length jsonPaths) st st')
  /\ (forall before after p w' e,
        workers st = (before ++ Busy p :: after)%list ->
        processFile Context.Background p (world st) = (w', Err e) ->
        worker (S (length before)) st
               (mkPool (mainAt st) (jobs st) (before ++ Idle :: after)%list
                       (emit (EvError (S (length before)) p e) w') false)
        /\ (e <> ErrWriteFile -> w' = world st))
  /\ (mainAt st = Finished ->
        Permutation (started (output (world st))) jsonPaths
        /\ Permutation (reported (output (world st))) jsonPaths
        /\ exists out,
             output (world st) = (out ++ [EvDone (length jsonPaths)])%list)
  /\ ((forall fs1 path data q,
          q <> path ->
          ReadFile (fst (WriteFile fs1 path data)) q = ReadFile fs1 q) ->
      (forall p q, In p jsonPaths -> In q jsonPaths -> srtPathOf p <> q) ->
      (forall q, In q jsonPaths ->
          dataToWrite Context.Background q (files (world st)) =
          dataToWrite Context.Background q fs)
      /\ faithful fs st).
Proof.
  intros _ Hpos Hrun.
  pose proof (run_inv _ _ _ _ _ Hrun) as Hinv.
  split; [apply (inv_alive _ _ _ Hinv)|].
  split; [rewrite <- (remaining_initial env jsonPaths numWorkers fs);
          exact (run_remaining _ _ _ _ Hrun)|].
  split; [now apply (pool_progress jsonPaths numWorkers)|].
  split; [|split].
  - intros before after p w' e Hw Hcall. split.
    + exact (worker_failed st before after p w' e
               (inv_alive _ _ _ Hinv) Hw Hcall).
    + intros He. exact (processFile_early_error _ _ _ _ _ _ Hcall He).
  - now apply pool_finished with (numWorkers := numWorkers).
  - intros Hframe Hfresh.
    destruct (run_independent jsonPaths numWorkers fs Hframe Hfresh n st Hrun)
      as [Hreads Hfaith].
    split; [|exact Hfaith].
    intros q Hq. apply dataToWrite_read. now apply Hreads.
Qed.

(** A complete run on the sample directory with one worker: the first
    document has no transcription and its task fails, the second is
    converted. *)
Lemma sample_run :
  run (env := SampleEnv.env) 2 9
      (initial (env := SampleEnv.env) SampleEnv.paths 1 SampleEnv.disk)
      SampleRun.final.
Proof.
  eapply run_front;
    [apply step_main, (main_send _ _ "/w/a.json" ["/w/b.json"]);
     [reflexivity | reflexivity | simpl; lia]|].
  eapply run_front;
    [apply step_main, (main_send _ _ "/w/b.json" []);
     [reflexivity | reflexivity | simpl; lia]|].
  eapply run_front; [apply step_main, main_close; reflexivity|].
  eapply run_front;
    [apply (step_worker _ 1),
       (worker_receive _ [] [] "/w/a.json" ["/w/b.json"]);
     reflexivity|].
  eapply run_front;
    [eapply (step_worker _ 1), (worker_failed _ [] [] "/w/a.json");
     reflexivity|].
  eapply run_front;
    [apply (step_worker _ 1), (worker_receive _ [] [] "/w/b.json" []);
     reflexivity|].
  eapply run_front;
    [eapply (step_worker _ 1), (worker_done _ [] [] "/w/b.json");
     reflexivity|].
  eapply run_front;
    [apply (step_worker _ 1), (worker_return _ [] []); reflexivity|].
  eapply run_front; [apply step_main, main_wait; reflexivity|].
  apply run_refl.
Qed.

Lemma worker_pool_isolates_failures_witness :
  crashed SampleRun.final = false
  /\ Permutation (reported (output (world SampleRun.final))) SampleEnv.paths.
Proof.
  destruct (worker_pool_isolates_failures SampleEnv.env SampleEnv.paths 1
              SampleEnv.disk 9 SampleRun.final)
    as (Halive & _ & _ & _ & Hdone & _).
  - discriminate.
  - lia.
  - exact sample_run.
  - split; [exact Halive|]. now destruct Hdone as (_ & Hreported & _).
Defined.

(** * Further properties *)

(** ** extractTimestamps and the skip test *)

Lemma hd_error_filter_existsb (A : Type) (f : A -> bool) l :
  existsb f l = match hd_error (filter f l) with Some _ => true | None => false end.
Proof.
  induction l as [|x l IH]; simpl; [reflexivity|].
  destruct (f x); simpl; [reflexivity | exact IH].
Qed.

(** X1.  The third result of [extractTimestamps] tells whether the
    segment has a speech token, also when the segment's own pair is
    returned because a token bound is empty. *)
Theorem hasValidTokens_is_speech_found segment :
  exists startTime endTime,
    extractTimestamps segment =
    Some (startTime, endTime, existsb isSpeech (Segment.Tokens segment)).
Proof.
  rewrite extractTimestamps_spec, hd_error_filter_existsb.
  fold (speechTokens segment). unfold tokenStart, tokenEnd.
  pose proof (speechTokens_rev_nil segment) as Hnil.
  destruct (hd_error (speechTokens segment)) as [first|];
    destruct (hd_error (rev (speechTokens segment))) as [last|]; simpl.
  - destruct (_ || _); eauto.
  - destruct Hnil as [_ Hnil]. now specialize (Hnil eq_refl).
  - destruct Hnil as [Hnil _]. now specialize (Hnil eq_refl).
  - eauto.
Qed.


(** ** The loop of processFile *)



(** X4.  The loop over two lists of segments one after the other is the
    loop over the first followed, unless that one ended in an error, by
    the loop over the second from the index reached; the captions of
    the whole are those of the first list followed by those of the
    second with their indices shifted by the length of the first. *)
Theorem renderSegments_app ctx i segments1 segments2 srtBuilder :
  renderSegments ctx i (segments1 ++ segments2)%list srtBuilder =
  match renderSegments ctx i segments1 srtBuilder with
  | Ok built => renderSegments ctx (i + length segments1) segments2 built
  | Err e => Err e
  | Panic => Panic
  end
  /\ captionsFrom i (segments1 ++ segments2)%list =
     (captionsFrom i segments1
      ++ captionsFrom (i + length segments1) segments2)%list.
Proof.
  split; [|apply captionsFrom_app].
  revert i srtBuilder.
  induction segments1 as [|segment rest IH]; intros i b; simpl.
  - now rewrite Nat.add_0_r.
  - destruct (Context.Done ctx (S i)); [reflexivity|].
    destruct (extractTimestamps segment) as [[[s e] h]|]; [|reflexivity].
    replace (i + S (length rest)) with (S i + length rest) by lia.
    destruct ((s =? "") || (e =? "")); apply IH.
Qed.

Lemma format_not_empty c : format c <> "".
Proof.
  unfold format. pose proof (Sprintf_d_isNumber (Caption.Index c)) as H.
  unfold isNumber in H. apply andb_prop in H as [H _].
  destruct (Sprintf_d (Caption.Index c)); [discriminate H | discriminate].
Qed.

Lemma captionsFrom_nil_iff i segments :
  captionsFrom i segments = [] <-> forallb skipped segments = true.
Proof.
  revert i; induction segments as [|segment rest IH]; intros i; simpl;
    [tauto|].
  unfold skipped at 1.
  destruct (extractTimestamps_total segment) as (s & e & h & E).
  rewrite E. destruct ((s =? "") || (e =? "")); simpl.
  - apply IH.
  - split; discriminate.
Qed.

(** X5.  The rendered text is empty exactly when every segment is
    skipped (in particular when there is no segment). *)
Theorem render_empty_iff ctx segments :
  neverDone ctx ->
  render ctx (WhisperOutput.mk (Some segments)) = Ok ""
  <-> forallb skipped segments = true.
Proof.
  intros Hctx. rewrite (render_captions _ _ Hctx).
  unfold captions. rewrite <- (captionsFrom_nil_iff 0).
  destruct (captionsFrom 0 segments) as [|c cs]; simpl.
  - tauto.
  - split; [|discriminate]. intros [= H].
    destruct (format c) eqn:E; [now elim (format_not_empty c)|discriminate].
Qed.

Lemma render_empty_iff_witness :
  render Context.Background
         (WhisperOutput.mk (Some [Examples.untimed; Examples.untimed]))
  = Ok "".
Proof.
  apply (render_empty_iff Context.Background
           [Examples.untimed; Examples.untimed]).
  - intros k; reflexivity.
  - reflexivity.
Defined.

Lemma captionsFrom_length i segments :
  length (captionsFrom i segments) =
  length (filter (fun segment => negb (skipped segment)) segments).
Proof.
  revert i; induction segments as [|segment rest IH]; intros i; simpl;
    [reflexivity|].
  unfold skipped at 1.
  destruct (extractTimestamps_total segment) as (s & e & h & E).
  rewrite E. destruct ((s =? "") || (e =? "")); simpl; now rewrite IH.
Qed.

(** X6.  When the context is not cancelled, the text rendered for a
    document is made of as many blocks as the document has segments
    that are not skipped: it is the blocks of a list of captions of that
    length, one after the other, each block the layout of its caption. *)
Theorem captions_count ctx segments :
  neverDone ctx ->
  exists blocks,
    render ctx (WhisperOutput.mk (Some segments))
    = Ok (fold_right append "" blocks)
    /\ blocks = map format (captions segments)
    /\ length blocks =
       length (filter (fun segment => negb (skipped segment)) segments)
    /\ Forall (fun text => text <> "") blocks.
Proof.
  intros Hctx. exists (map format (captions segments)).
  split; [|split; [reflexivity|split]].
  - rewrite (render_captions _ _ Hctx). f_equal. unfold formatAll.
    induction (captions segments) as [|c cs IH]; simpl;
      [reflexivity | now rewrite IH].
  - rewrite length_map. apply captionsFrom_length.
  - apply Forall_forall. intros text Hin.
    apply in_map_iff in Hin as (c & <- & _). apply format_not_empty.
Qed.

Lemma captions_count_witness :
  exists blocks,
    render Context.Background
      (WhisperOutput.mk
         (Some [Examples.scenarioA; Examples.untimed; Examples.scenarioD]))
    = Ok (fold_right append "" blocks)
    /\ length blocks = 2.
Proof.
  destruct (captions_count Context.Background
              [Examples.scenarioA; Examples.untimed; Examples.scenarioD])
    as (blocks & Hrender & _ & Hlen & _).
  - intros k; reflexivity.
  - exists blocks. split; [exact Hrender | exact Hlen].
Defined.

(** The loop ends in one of two ways: the context is done at the poll
    before some segment, and the result is the context's error; or it
    is done at none, and the result is the builder with the blocks. *)
Lemma renderSegments_cases ctx segments i srtBuilder :
  ((exists k, k < length segments /\ Context.Done ctx (S (i + k)) = true)
   /\ renderSegments ctx i segments srtBuilder = Err ErrContext)
  \/ ((forall k, k < length segments ->
                 Context.Done ctx (S (i + k)) = false)
      /\ renderSegments ctx i segments srtBuilder =
         Ok (srtBuilder ++ formatAll (captionsFrom i segments))).
Proof.
  revert i srtBuilder.
  induction segments as [|segment rest IH]; intros i b; simpl.
  - right. split; [intros k Hk; lia | now rewrite append_nil_r].
  - destruct (Context.Done ctx (S i)) eqn:Hpoll.
    + left. split; [|reflexivity]. exists 0.
      rewrite Nat.add_0_r. split; [lia | exact Hpoll].
    + destruct (extractTimestamps_total segment) as (s & e & h & E).
      rewrite E.
      assert (Hshift : forall k, S (S i + k) = S (i + S k))
        by (intros; f_equal; lia).
      assert (Hall : forall P : nat -> Prop,
                 P 0 -> (forall k, k < length rest -> P (S k)) ->
                 forall k, k < S (length rest) -> P k).
      { intros P H0 HS [|k] Hk; [exact H0 | apply HS; lia]. }
      destruct ((s =? "") || (e =? "")).
      * destruct (IH (S i) b) as [[(k & Hk & Hd) ->] | [Hnone ->]].
        -- left. split; [|reflexivity]. exists (S k).
           rewrite <- Hshift. split; [lia | exact Hd].
        -- right. split; [|reflexivity].
           apply Hall; [now rewrite Nat.add_0_r|].
           intros k Hk. rewrite <- Hshift. now apply Hnone.
      * destruct (IH (S i) (b ++ block i s e segment))
          as [[(k & Hk & Hd) ->] | [Hnone ->]].
        -- left. split; [|reflexivity]. exists (S k).
           rewrite <- Hshift. split; [lia | exact Hd].
        -- right. split.
           ++ apply Hall; [now rewrite Nat.add_0_r|].
              intros k Hk. rewrite <- Hshift. now apply Hnone.
           ++ simpl formatAll. now rewrite block_format, append_assoc.
Qed.

(** X7.  [render] returns the context's error exactly when the context
    is done at the poll before one of the segments; the blocks built
    until then are dropped, and [processFile] then returns that error
    without writing or printing anything.  When the context is done at
    none of these polls the result is the text of all captions. *)
Theorem render_cancelled_iff ctx segments :
  (render ctx (WhisperOutput.mk (Some segments)) = Err ErrContext
   <-> exists k, k < length segments /\ Context.Done ctx (S k) = true)
  /\ ((forall k, k < length segments -> Context.Done ctx (S k) = false) ->
      render ctx (WhisperOutput.mk (Some segments))
      = Ok (formatAll (captions segments)))
  /\ (forall (env : Env) jsonPath w byteValue,
        Context.Done ctx 0 = false ->
        ReadFile (files w) jsonPath = Some byteValue ->
        Unmarshal byteValue = Some (WhisperOutput.mk (Some segments)) ->
        (exists k, k < length segments /\ Context.Done ctx (S k) = true) ->
        processFile ctx jsonPath w = (w, Err ErrContext)).
Proof.
  unfold render; simpl.
  pose proof (renderSegments_cases ctx segments 0 "") as Hcases.
  simpl in Hcases.
  assert (Hiff : renderSegments ctx 0 segments "" = Err ErrContext
                 <-> exists k, k < length segments
                               /\ Context.Done ctx (S k) = true).
  { destruct Hcases as [[Hex ->] | [Hnone ->]].
    - tauto.
    - split; [discriminate|]. intros (k & Hk & Hd).
      now rewrite (Hnone k Hk) in Hd. }
  split; [exact Hiff|]. split.
  - intros Hnone. destruct Hcases as [[(k & Hk & Hd) _] | [_ ->]].
    + now rewrite (Hnone k Hk) in Hd.
    + reflexivity.
  - intros env jsonPath w byteValue H0 Hread Hjson Hex.
    apply Hiff in Hex. unfold processFile, dataToWrite.
    rewrite H0, Hread, Hjson. unfold render; simpl. now rewrite Hex.
Qed.

Lemma render_cancelled_iff_witness :
  render (Context.mk (fun k => Nat.eqb k 2))
         (WhisperOutput.mk (Some [Examples.scenarioA; Examples.scenarioD]))
  = Err ErrContext.
Proof.
  destruct (render_cancelled_iff
              (Context.mk (fun k => Nat.eqb k 2))
              [Examples.scenarioA; Examples.scenarioD]) as ([_ Hcancel] & _).
  apply Hcancel. exists 1. split; [simpl; lia | reflexivity].
Defined.

(** ** processFile and its files *)

(** X8.  [processFile] returns no error exactly when the context is not
    done at entry, the file is read and decoded, its transcription list
    is present, the context is done before none of the segments, and
    the write succeeds.  The bytes written, at the path of line 86, are
    then the byte order mark followed by the blocks of the captions,
    and the success message is what the call prints. *)
Theorem processFile_success_iff (env : Env) ctx jsonPath w w' :
  processFile ctx jsonPath w = (w', Ok tt)
  <-> Context.Done ctx 0 = false
      /\ exists byteValue segments fs',
           ReadFile (files w) jsonPath = Some byteValue
           /\ Unmarshal byteValue = Some (WhisperOutput.mk (Some segments))
           /\ (forall k, k < length segments ->
                         Context.Done ctx (S k) = false)
           /\ WriteFile (files w) (srtPathOf jsonPath)
                        (bom ++ formatAll (captions segments)) = (fs', true)
           /\ w' = mkWorld fs' (output w ++ [EvSuccess jsonPath])%list.
Proof.
  split.
  - intros H. unfold processFile, dataToWrite in H.
    destruct (Context.Done ctx 0) eqn:H0; [discriminate|].
    destruct (ReadFile (files w) jsonPath) as [byteValue|] eqn:Hread;
      [|discriminate].
    destruct (Unmarshal byteValue) as [[[segments|]]|] eqn:Hjson;
      try discriminate.
    change (render ctx (WhisperOutput.mk (Some segments)))
      with (renderSegments ctx 0 segments "") in H.
    destruct (renderSegments_cases ctx segments 0 "")
      as [[_ Hr] | [Hnone Hr]]; rewrite Hr in H; [discriminate|].
    cbn [append] in H. fold (captions segments) in H.
    destruct (WriteFile (files w) (srtPathOf jsonPath)
                (bom ++ formatAll (captions segments))) as [fs' [|]] eqn:Hw;
      cbv beta iota in H; [|discriminate].
    injection H as <-. split; [reflexivity|].
    exists byteValue, segments, fs'. repeat split; auto.
  - intros (H0 & byteValue & segments & fs' & Hread & Hjson & Hnone & Hw & ->).
    unfold processFile, dataToWrite.
    rewrite H0, Hread, Hjson.
    change (render ctx (WhisperOutput.mk (Some segments)))
      with (renderSegments ctx 0 segments "").
    destruct (renderSegments_cases ctx segments 0 "")
      as [[(k & Hk & Hd) _] | [_ ->]].
    + simpl in Hd. now rewrite (Hnone k Hk) in Hd.
    + cbn [append]. fold (captions segments). now rewrite Hw.
Qed.

(** X9.  Whatever its result, a call of [processFile] leaves the files
    as they are or makes one write, at the subtitle path of its input,
    of data that starts with the byte order mark; and it prints the
    success message exactly when it returns no error. *)
Theorem processFile_effects (env : Env) ctx jsonPath w w' r :
  processFile ctx jsonPath w = (w', r) ->
  (files w' = files w
   \/ exists content,
        files w' =
        fst (WriteFile (files w) (srtPathOf jsonPath) (bom ++ content)))
  /\ output w' =
     (output w ++ match r with Ok _ => [EvSuccess jsonPath] | _ => [] end)%list
  /\ (r = Ok tt <-> output w' <> output w).
Proof.
  intros Hcall.
  pose proof (processFile_output _ _ _ _ _ Hcall) as Hout.
  split; [|split; [exact Hout|]].
  - destruct (processFile_files _ _ _ _ _ Hcall) as [H | (data & Hdata & H)];
      [now left | right].
    unfold dataToWrite in Hdata.
    destruct (Context.Done ctx 0); [discriminate|].
    destruct (ReadFile (files w) jsonPath) as [byteValue|]; [|discriminate].
    destruct (Unmarshal byteValue) as [output|]; [|discriminate].
    destruct (render ctx output) as [content| |]; try discriminate.
    injection Hdata as <-. now exists content.
  - rewrite Hout. destruct r as [[]|e|].
    + split; [intros _|reflexivity].
      intros H. rewrite <- (app_nil_r (output w)) in H at 2.
      apply app_inv_head in H. discriminate.
    + rewrite app_nil_r. split; [discriminate | now intros H].
    + rewrite app_nil_r. split; [discriminate | now intros H].
Qed.

Lemma processFile_effects_witness :
  files (fst (processFile (env := SampleEnv.env) Context.Background
                "/w/b.json"
                (mkWorld (env := SampleEnv.env) SampleEnv.disk [])))
  = SampleEnv.disk
  \/ exists content,
       files (fst (processFile (env := SampleEnv.env) Context.Background
                     "/w/b.json"
                     (mkWorld (env := SampleEnv.env) SampleEnv.disk [])))
       = ("/w/b.srt", bom ++ content) :: SampleEnv.disk.
Proof.
  destruct (processFile_effects SampleEnv.env Context.Background "/w/b.json"
              (mkWorld (env := SampleEnv.env) SampleEnv.disk [])
              (fst (processFile (env := SampleEnv.env) Context.Background
                      "/w/b.json"
                      (mkWorld (env := SampleEnv.env) SampleEnv.disk [])))
              (Ok tt) eq_refl) as (Hfiles & _).
  exact Hfiles.
Defined.

(** X10.  For a document whose segments are all skipped (or that has
    none), with the context not done, the bytes handed to
    [os.WriteFile] are the byte order mark alone: the subtitle file is
    still written. *)
Theorem all_skipped_writes_bom (env : Env) ctx jsonPath fs byteValue segments :
  neverDone ctx ->
  ReadFile fs jsonPath = Some byteValue ->
  Unmarshal byteValue = Some (WhisperOutput.mk (Some segments)) ->
  forallb skipped segments = true ->
  dataToWrite ctx jsonPath fs = Ok bom
  /\ forall output,
       processFile ctx jsonPath (mkWorld fs output) =
       (let '(fs', ok) := WriteFile fs (srtPathOf jsonPath) bom in
        if ok
        then (mkWorld fs' (output ++ [EvSuccess jsonPath])%list, Ok tt)
        else (mkWorld fs' output, Err ErrWriteFile)).
Proof.
  intros Hctx Hread Hjson Hall.
  assert (Hdata : dataToWrite ctx jsonPath fs = Ok bom).
  { unfold dataToWrite. rewrite Hctx, Hread, Hjson.
    rewrite (render_captions _ _ Hctx). unfold captions.
    apply (captionsFrom_nil_iff 0) in Hall. rewrite Hall. reflexivity. }
  split; [exact Hdata|]. intros output.
  unfold processFile. simpl. rewrite Hdata.
  now destruct (WriteFile fs (srtPathOf jsonPath) bom) as [fs' [|]].
Qed.

Lemma all_skipped_writes_bom_witness :
  dataToWrite (env := SampleEnv.env) Context.Background "/w/b.json"
    SampleEnv.disk = Ok bom.
Proof.
  apply (all_skipped_writes_bom SampleEnv.env Context.Background "/w/b.json"
           SampleEnv.disk SampleEnv.emptyDocument []).
  - intros k; reflexivity.
  - reflexivity.
  - reflexivity.
  - reflexivity.
Defined.

(** ** The path of the subtitle file (line 86) *)

Lemma length_append (a b : string) :
  String.length (a ++ b) = String.length a + String.length b.
Proof. induction a as [|c a IH]; simpl; [reflexivity | now rewrite IH]. Qed.

Lemma substring_whole (s : string) : substring 0 (String.length s) s = s.
Proof. induction s as [|c s IH]; simpl; [reflexivity | now rewrite IH]. Qed.

Lemma substring_skip (a b : string) m :
  substring (String.length a) m (a ++ b) = substring 0 m b.
Proof. induction a as [|c a IH]; simpl; [reflexivity | exact IH]. Qed.

Lemma substring_head (a b : string) :
  substring 0 (String.length a) (a ++ b) = a.
Proof.
  induction a as [|c a IH]; simpl; [now destruct b | now rewrite IH].
Qed.

(** A string splits at any position inside it. *)
Lemma substring_split (s : string) k :
  k <= String.length s ->
  s = substring 0 k s ++ substring k (String.length s - k) s.
Proof.
  revert k; induction s as [|c s IH]; intros [|k] Hk; simpl in *;
    try lia; try reflexivity.
  - now rewrite substring_whole.
  - rewrite <- IH by lia. reflexivity.
Qed.

Lemma HasSuffix_append (a suffix : string) : HasSuffix (a ++ suffix) suffix = true.
Proof.
  unfold HasSuffix. rewrite length_append.
  replace (String.length a + String.length suffix - String.length suffix)
    with (String.length a) by lia.
  rewrite substring_skip, substring_whole, String.eqb_refl.
  replace (String.length suffix <=? String.length a + String.length suffix)%nat
    with true by (symmetry; apply Nat.leb_le; lia).
  reflexivity.
Qed.

Lemma HasSuffix_true (s suffix : string) :
  HasSuffix s suffix = true -> exists a, s = a ++ suffix.
Proof.
  unfold HasSuffix. intros H. apply andb_prop in H as [Hlen Heq].
  apply Nat.leb_le in Hlen. apply String.eqb_eq in Heq.
  exists (substring 0 (String.length s - String.length suffix) s).
  rewrite (substring_split s (String.length s - String.length suffix))
    at 1 by lia.
  f_equal.
  replace (String.length s - (String.length s - String.length suffix))
    with (String.length suffix) by lia.
  exact Heq.
Qed.

Lemma TrimSuffix_append (a suffix : string) :
  TrimSuffix (a ++ suffix) suffix = a.
Proof.
  unfold TrimSuffix. rewrite HasSuffix_append, length_append.
  replace (String.length a + String.length suffix - String.length suffix)
    with (String.length a) by lia.
  apply substring_head.
Qed.

Lemma list_ascii_of_string_app (a b : string) :
  list_ascii_of_string (a ++ b) =
  (list_ascii_of_string a ++ list_ascii_of_string b)%list.
Proof. induction a as [|c a IH]; simpl; [reflexivity | now rewrite IH]. Qed.

Lemma forallb_rev (A : Type) (f : A -> bool) l :
  forallb f (rev l) = forallb f l.
Proof.
  induction l as [|x l IH]; simpl; [reflexivity|].
  rewrite forallb_app, IH; simpl. rewrite andb_true_r. apply andb_comm.
Qed.

(** The scan of [filepath.Ext] over plain bytes, then a dot. *)
Lemma extScan_dot r1 r2 acc :
  forallb (fun c => negb (Ascii.eqb c "/") && negb (Ascii.eqb c ".")) r1 = true ->
  extScan (r1 ++ "."%char :: r2)%list acc = ("."%char :: rev r1 ++ acc)%list.
Proof.
  revert acc; induction r1 as [|c r1 IH]; intros acc H; simpl in *.
  - reflexivity.
  - apply andb_prop in H as [Hc H]. apply andb_prop in Hc as [Hs Hd].
    apply negb_true_iff in Hs, Hd. rewrite Hs, Hd, (IH _ H).
    now rewrite <- app_assoc.
Qed.

(** The scan over plain bytes, then a separator or the start. *)
Lemma extScan_none r1 r2 acc :
  forallb (fun c => negb (Ascii.eqb c "/") && negb (Ascii.eqb c ".")) r1 = true ->
  r2 = [] \/ (exists r3, r2 = "/"%char :: r3) ->
  extScan (r1 ++ r2)%list acc = [].
Proof.
  revert acc; induction r1 as [|c r1 IH]; intros acc H Hr2; simpl in *.
  - destruct Hr2 as [-> | [r3 ->]]; reflexivity.
  - apply andb_prop in H as [Hc H]. apply andb_prop in Hc as [Hs Hd].
    apply negb_true_iff in Hs, Hd. rewrite Hs, Hd. now apply IH.
Qed.

(** Every byte sequence is plain bytes followed by a dot, by a
    separator or by nothing. *)
Lemma plain_prefix r :
  exists r1 r2,
    r = (r1 ++ r2)%list
    /\ forallb (fun c => negb (Ascii.eqb c "/") && negb (Ascii.eqb c ".")) r1
       = true
    /\ (r2 = [] \/ (exists r3, r2 = "/"%char :: r3)
        \/ (exists r3, r2 = "."%char :: r3)).
Proof.
  induction r as [|c r (r1 & r2 & -> & Hplain & Hr2)].
  - exists [], []. auto.
  - destruct (Ascii.eqb c "/") eqn:Hs.
    + apply Ascii.eqb_eq in Hs as ->.
      exists [], ("/"%char :: r1 ++ r2)%list. simpl.
      split; [reflexivity|]. split; [reflexivity|]. right; left. eauto.
    + destruct (Ascii.eqb c ".") eqn:Hd.
      * apply Ascii.eqb_eq in Hd as ->.
        exists [], ("."%char :: r1 ++ r2)%list. simpl.
        split; [reflexivity|]. split; [reflexivity|]. right; right. eauto.
      * exists (c :: r1), r2. simpl. rewrite Hs, Hd, Hplain.
        split; [reflexivity|]. split; [reflexivity | exact Hr2].
Qed.

Lemma Ext_extension stem ext :
  plain ext = true -> Ext (stem ++ "." ++ ext) = "." ++ ext.
Proof.
  intros Hplain. unfold Ext.
  rewrite list_ascii_of_string_app. simpl.
  rewrite rev_app_distr. simpl. rewrite <- app_assoc. simpl.
  rewrite extScan_dot by (rewrite forallb_rev; exact Hplain).
  rewrite rev_involutive, app_nil_r. simpl.
  now rewrite string_of_list_ascii_of_string.
Qed.

(** X11.  For a path that ends in a dot and an extension without dot
    or separator, the subtitle path is the path with that last
    extension replaced by [.srt]: earlier dots and the directory are
    kept, and the case of the extension does not matter. *)
Theorem srtPathOf_replaces_extension stem ext :
  plain ext = true ->
  srtPathOf (stem ++ "." ++ ext) = stem ++ ".srt".
Proof.
  intros Hplain. unfold srtPathOf. rewrite (Ext_extension _ _ Hplain).
  now rewrite TrimSuffix_append.
Qed.

Lemma srtPathOf_replaces_extension_witness :
  srtPathOf ("/w/talk.v2" ++ "." ++ "JSON") = "/w/talk.v2" ++ ".srt".
Proof.
  apply (srtPathOf_replaces_extension "/w/talk.v2" "JSON"). reflexivity.
Defined.

Lemma TrimSuffix_empty s : TrimSuffix s "" = s.
Proof.
  rewrite <- (append_nil_r s) at 1. apply TrimSuffix_append.
Qed.

(** X12.  When the last element of the path has no dot, [.srt] is
    appended to the whole path, also when a directory above has a dot
    in its name. *)
Theorem srtPathOf_without_extension dir name :
  plain name = true ->
  srtPathOf (dir ++ "/" ++ name) = dir ++ "/" ++ name ++ ".srt"
  /\ srtPathOf name = name ++ ".srt".
Proof.
  intros Hplain. unfold srtPathOf, Ext. split.
  - rewrite list_ascii_of_string_app. simpl.
    rewrite rev_app_distr. simpl. rewrite <- app_assoc. simpl.
    rewrite extScan_none; [|rewrite forallb_rev; exact Hplain|eauto].
    simpl. now rewrite TrimSuffix_empty, !append_assoc.
  - rewrite <- (app_nil_r (rev (list_ascii_of_string name))).
    rewrite extScan_none; [|rewrite forallb_rev; exact Hplain|auto].
    simpl. now rewrite TrimSuffix_empty.
Qed.

Lemma srtPathOf_without_extension_witness :
  srtPathOf ("/w/talks.2024" ++ "/" ++ "talk")
  = "/w/talks.2024" ++ "/" ++ "talk" ++ ".srt".
Proof.
  apply (srtPathOf_without_extension "/w/talks.2024" "talk"). reflexivity.
Defined.

Lemma append_inv_head (a b c : string) : a ++ b = a ++ c -> b = c.
Proof.
  induction a as [|x a IH]; simpl; [auto|]. intros [= H]. auto.
Qed.

(** X13.  Every path is a stem followed by its extension, which is
    empty or a dot and bytes without dot or separator; the subtitle
    path is the stem followed by [.srt].  So it is the input path
    itself exactly when the extension of the input is [.srt]. *)
Theorem srtPathOf_structure jsonPath :
  exists stem,
    jsonPath = stem ++ Ext jsonPath
    /\ srtPathOf jsonPath = stem ++ ".srt"
    /\ (Ext jsonPath = ""
        \/ exists ext, Ext jsonPath = "." ++ ext /\ plain ext = true)
    /\ (srtPathOf jsonPath = jsonPath <-> Ext jsonPath = ".srt").
Proof.
  assert (H : exists stem,
             jsonPath = stem ++ Ext jsonPath
             /\ (Ext jsonPath = ""
                 \/ exists ext, Ext jsonPath = "." ++ ext /\ plain ext = true)).
  { destruct (plain_prefix (rev (list_ascii_of_string jsonPath)))
      as (r1 & r2 & Hrev & Hplain & Hr2).
    destruct Hr2 as [Hr2 | [Hr2 | (r3 & ->)]].
    - exists jsonPath. unfold Ext. rewrite Hrev.
      rewrite extScan_none by auto. simpl.
      split; [now rewrite append_nil_r | now left].
    - exists jsonPath. unfold Ext. rewrite Hrev.
      rewrite extScan_none by auto. simpl.
      split; [now rewrite append_nil_r | now left].
    - apply (f_equal (@rev ascii)) in Hrev.
      rewrite rev_involutive, rev_app_distr in Hrev. simpl in Hrev.
      rewrite <- app_assoc in Hrev. simpl in Hrev.
      apply (f_equal string_of_list_ascii) in Hrev.
      rewrite string_of_list_ascii_of_string, string_of_list_ascii_app in Hrev.
      simpl in Hrev.
      assert (Hext : plain (string_of_list_ascii (rev r1)) = true).
      { unfold plain. now rewrite list_ascii_of_string_of_list_ascii,
          forallb_rev. }
      change (String "." (string_of_list_ascii (rev r1)))
        with ("." ++ string_of_list_ascii (rev r1)) in Hrev.
      exists (string_of_list_ascii (rev r3)).
      subst jsonPath. rewrite (Ext_extension _ _ Hext).
      split; [reflexivity|]. right. eauto. }
  destruct H as (stem & Hsplit & Hshape).
  assert (Hsrt : srtPathOf jsonPath = stem ++ ".srt").
  { unfold srtPathOf. rewrite Hsplit at 1. now rewrite TrimSuffix_append. }
  exists stem. split; [exact Hsplit|]. split; [exact Hsrt|].
  split; [exact Hshape|]. rewrite Hsrt. split.
  - intros H. rewrite Hsplit in H. apply append_inv_head in H. auto.
  - intros H. rewrite Hsplit. now rewrite H.
Qed.

(** X14.  When writes leave other files alone and the extension of the
    input path is not [.srt], a call of [processFile] leaves its input
    file as it was, so a second call computes the same bytes again. *)
Theorem processFile_keeps_input (env : Env) ctx jsonPath w w' r :
  (forall fs path data q,
      q <> path -> ReadFile (fst (WriteFile fs path data)) q = ReadFile fs q) ->
  Ext jsonPath <> ".srt" ->
  processFile ctx jsonPath w = (w', r) ->
  ReadFile (files w') jsonPath = ReadFile (files w) jsonPath
  /\ dataToWrite ctx jsonPath (files w') = dataToWrite ctx jsonPath (files w).
Proof.
  intros Hframe Hext Hcall.
  assert (Hread : ReadFile (files w') jsonPath = ReadFile (files w) jsonPath).
  { destruct (processFile_files _ _ _ _ _ Hcall) as [-> | (data & _ & ->)];
      [reflexivity|].
    apply Hframe. intros H. symmetry in H.
    destruct (srtPathOf_structure jsonPath) as (_ & _ & _ & _ & Hfix).
    now apply Hfix in H. }
  split; [exact Hread | now apply dataToWrite_read].
Qed.

Lemma processFile_keeps_input_witness :
  SampleEnv.lookup
    (files (fst (processFile (env := SampleEnv.env) Context.Background
                   "/w/b.json"
                   (mkWorld (env := SampleEnv.env) SampleEnv.disk []))))
    "/w/b.json"
  = SampleEnv.lookup SampleEnv.disk "/w/b.json".
Proof.
  destruct (processFile_keeps_input SampleEnv.env Context.Background
              "/w/b.json"
              (mkWorld (env := SampleEnv.env) SampleEnv.disk [])
              (fst (processFile (env := SampleEnv.env) Context.Background
                      "/w/b.json"
                      (mkWorld (env := SampleEnv.env) SampleEnv.disk [])))
              (Ok tt)) as [Hread _].
  - intros fs path data q Hq. simpl.
    destruct (String.eqb_spec path q) as [-> | _];
      [now elim Hq | reflexivity].
  - discriminate.
  - reflexivity.
  - exact Hread.
Defined.

(** ** More on the worker pool *)

Section PoolOrder.
Context {env : Env}.
Variable jsonPaths : list string.
Variable numWorkers : nat.
Variable fs0 : FS.
Local Open Scope list_scope.

(** The paths not yet received are a final part of the list. *)
Lemma run_queue n st :
  run (length jsonPaths) n (initial jsonPaths numWorkers fs0) st ->
  exists taken,
    jsonPaths = taken ++ jobs st ++ pending st
    /\ Permutation taken (started (output (world st))).
Proof.
  intros Hrun. remember (initial jsonPaths numWorkers fs0) as st0.
  induction Hrun as [s0 | n s0 s1 s2 Hrun IH Hstep].
  - subst. exists []. split; [reflexivity | constructor].
  - specialize (IH Heqst0) as (taken & Hsplit & Hperm).
    unfold pending in *.
    destruct Hstep as
      [s s' [st p rest _ Hmain Hcap
            |st _ Hmain
            |st _ Hmain Hall]
      |id s s' [st before after p rest _ Hw Hj
               |st before after _ Hw Hj Hclosed
               |st before after p w' _ Hw Hcall
               |st before after p w' e _ Hw Hcall
               |st before after p w' _ Hw Hcall]];
      simpl; try rewrite Hmain in *; try rewrite Hj in *.
    + exists taken. split; [now rewrite <- app_assoc | exact Hperm].
    + exists taken. auto.
    + exists taken. split; [exact Hsplit|].
      rewrite started_app; simpl. now rewrite app_nil_r.
    + exists (taken ++ [p]). split; [now rewrite <- app_assoc|].
      rewrite started_app; simpl. now apply Permutation_app_tail.
    + exists taken. auto.
    + exists taken. split; [exact Hsplit|].
      rewrite (processFile_output _ _ _ _ _ Hcall), started_app; simpl.
      now rewrite app_nil_r.
    + exists taken. split; [exact Hsplit|].
      rewrite (processFile_output _ _ _ _ _ Hcall), !started_app; simpl.
      now rewrite !app_nil_r.
    + exists taken. split; [exact Hsplit|].
      rewrite (processFile_output _ _ _ _ _ Hcall), started_app; simpl.
      now rewrite app_nil_r.
Qed.

(** No transition leaves a state in which [main] is past line 202. *)
Lemma finished_no_step st st' :
  poolInv jsonPaths numWorkers st ->
  mainAt st = Finished ->
  ~ step (length jsonPaths) st st'.
Proof.
  intros Hinv Hmain Hstep.
  destruct (inv_finished _ _ _ Hinv Hmain) as [Hall _].
  destruct Hstep as
    [s s' [st p rest _ Hm Hcap
          |st _ Hm
          |st _ Hm Hall']
    |id s s' [st before after p rest _ Hw Hj
             |st before after _ Hw Hj Hclosed
             |st before after p w' _ Hw Hcall
             |st before after p w' e _ Hw Hcall
             |st before after p w' _ Hw Hcall]];
    try congruence;
    rewrite Hw in Hall; apply allReturned_split in Hall; discriminate.
Qed.
End PoolOrder.

(** X15.  A send of [main] never blocks: whenever a path remains to be
    sent the channel has room for it, whatever the workers have done so
    far and however many there are. *)
Theorem send_never_blocks (env : Env) jsonPaths numWorkers fs n st p rest :
  run (length jsonPaths) n (initial jsonPaths numWorkers fs) st ->
  mainAt st = Sending (p :: rest) ->
  length (jobs st) < length jsonPaths
  /\ main (length jsonPaths) st
          (mkPool (Sending rest) (jobs st ++ [p])%list (workers st)
                  (world st) false).
Proof.
  intros Hrun Hmain.
  pose proof (run_inv _ _ _ _ _ Hrun) as Hinv.
  assert (Hroom : length (jobs st) < length jsonPaths).
  { pose proof (inv_jobs _ _ _ Hinv) as Hjobs.
    apply Permutation_length in Hjobs. unfold pending in Hjobs.
    rewrite Hmain, !length_app in Hjobs. simpl in Hjobs. lia. }
  split; [exact Hroom|].
  exact (main_send _ st p rest (inv_alive _ _ _ Hinv) Hmain Hroom).
Qed.

Lemma send_never_blocks_witness :
  main (env := SampleEnv.env) 2
       (initial (env := SampleEnv.env) SampleEnv.paths 0 SampleEnv.disk)
       (mkPool (env := SampleEnv.env) (Sending ["/w/b.json"]) ["/w/a.json"]
               [] (mkWorld (env := SampleEnv.env) SampleEnv.disk []) false).
Proof.
  apply (send_never_blocks SampleEnv.env SampleEnv.paths 0 SampleEnv.disk 0
           (initial (env := SampleEnv.env) SampleEnv.paths 0 SampleEnv.disk)
           "/w/a.json" ["/w/b.json"]).
  - apply run_refl.
  - reflexivity.
Defined.

(** X16.  The paths are handed out in the order of the list: at every
    moment those still in the channel followed by those still to be
    sent are a final part of the list, and the tasks begun are the
    paths before it. *)
Theorem jobs_in_list_order (env : Env) jsonPaths numWorkers fs n st :
  run (length jsonPaths) n (initial jsonPaths numWorkers fs) st ->
  exists taken,
    jsonPaths = (taken ++ jobs st ++ pending st)%list
    /\ Permutation taken (started (output (world st))).
Proof. apply run_queue. Qed.

Lemma jobs_in_list_order_witness :
  exists taken,
    SampleEnv.paths =
    (taken ++ jobs SampleRun.final ++ pending SampleRun.final)%list
    /\ Permutation taken (started (output (world SampleRun.final))).
Proof.
  apply (jobs_in_list_order SampleEnv.env SampleEnv.paths 1 SampleEnv.disk 9
           SampleRun.final).
  exact sample_run.
Defined.

(** X17.  Once [main] is past [wg.Wait()] and its last print, every
    worker has returned, the channel is empty when there was a worker
    at all, and no goroutine makes a further transition: nothing is
    printed after the count. *)
Theorem finished_is_final (env : Env) jsonPaths numWorkers fs n st :
  run (length jsonPaths) n (initial jsonPaths numWorkers fs) st ->
  mainAt st = Finished ->
  allReturned (workers st) = true
  /\ (0 < numWorkers -> jobs st = [])
  /\ forall st', ~ step (length jsonPaths) st st'.
Proof.
  intros Hrun Hmain.
  pose proof (run_inv _ _ _ _ _ Hrun) as Hinv.
  destruct (inv_finished _ _ _ Hinv Hmain) as [Hall _].
  split; [exact Hall|]. split.
  - intros Hpos. apply (inv_returned _ _ _ Hinv).
    apply allReturned_In; [exact Hall|].
    rewrite (inv_workers _ _ _ Hinv). exact Hpos.
  - intros st'. now apply (finished_no_step jsonPaths numWorkers).
Qed.

Lemma finished_is_final_witness :
  allReturned (workers SampleRun.final) = true
  /\ (0 < 1 -> jobs SampleRun.final = [])
  /\ forall st', ~ step (env := SampleEnv.env) 2 SampleRun.final st'.
Proof.
  apply (finished_is_final SampleEnv.env SampleEnv.paths 1 SampleEnv.disk 9
           SampleRun.final).
  - exact sample_run.
  - reflexivity.
Defined.

Lemma nth_error_at (A : Type) (before : list A) x after :
  nth_error (before ++ x :: after)%list (length before) = Some x.
Proof. induction before as [|a before IH]; simpl; auto. Qed.

Lemma nth_error_middle (A : Type) (before : list A) x y after k :
  k <> length before ->
  nth_error (before ++ x :: after)%list k =
  nth_error (before ++ y :: after)%list k.
Proof.
  revert k; induction before as [|a before IH]; intros [|k] Hk; simpl in *;
    try reflexivity; try lia.
  apply IH. lia.
Qed.

Lemma app_snoc_split (A : Type) (l : list A) x a y b :
  (l ++ [x] = a ++ y :: b)%list ->
  (a = l /\ y = x /\ b = [])
  \/ exists b', b = (b' ++ [x])%list /\ l = (a ++ y :: b')%list.
Proof.
  destruct b as [|z b] using rev_ind; intros H.
  - apply app_inj_tail in H as [-> ->]. now left.
  - clear IHb. right. exists b.
    rewrite app_comm_cons, app_assoc in H.
    apply app_inj_tail in H as [-> ->]. auto.
Qed.

Section PoolLog.
Context {env : Env}.
Variable jsonPaths : list string.
Variable numWorkers : nat.
Variable fs0 : FS.
Local Open Scope list_scope.

(** What the output tells of the workers: a busy worker has printed
    its start line; before every error line and every success line
    stands the start line of the task. *)
Lemma run_log n st :
  run (length jsonPaths) n (initial jsonPaths numWorkers fs0) st ->
  (forall k p, nth_error (workers st) k = Some (Busy p) ->
               In (EvStart (S k) p) (output (world st)))
  /\ (forall a b id p e,
        output (world st) = a ++ EvError id p e :: b ->
        In (EvStart id p) a /\ 1 <= id <= numWorkers)
  /\ (forall a b p,
        output (world st) = a ++ EvSuccess p :: b ->
        exists id, In (EvStart id p) a).
Proof.
  intros Hrun. remember (initial jsonPaths numWorkers fs0) as st0.
  induction Hrun as [s0 | n s0 s1 s2 Hrun IH Hstep].
  - subst; simpl. split; [|split].
    + intros k p H. apply nth_error_In, repeat_spec in H. discriminate.
    + intros [|? ?] ? ? ? ? H; discriminate.
    + intros [|? ?] ? ? H; discriminate.
  - assert (Hinv : poolInv jsonPaths numWorkers s1)
      by (subst; eapply run_inv; eauto).
    specialize (IH Heqst0) as (Hbusy & Herr & Hok).
    pose proof (inv_workers _ _ _ Hinv) as Hlen.
    destruct Hstep as
      [s s' [st p rest _ Hmain Hcap
            |st _ Hmain
            |st _ Hmain Hall]
      |id s s' [st before after p rest _ Hw Hj
               |st before after _ Hw Hj Hclosed
               |st before after p w' _ Hw Hcall
               |st before after p w' e _ Hw Hcall
               |st before after p w' _ Hw Hcall]];
      simpl.
    + auto.
    + auto.
    + (* wait *)
      split; [|split].
      * intros k q H. apply in_or_app. left. auto.
      * intros a b i q e H.
        apply app_snoc_split in H as [(_ & [=] & _) | (b' & _ & H)]. eauto.
      * intros a b q H.
        apply app_snoc_split in H as [(_ & [=] & _) | (b' & _ & H)]. eauto.
    + (* receive *)
      split; [|split].
      * intros k q H. apply in_or_app.
        destruct (Nat.eq_dec k (length before)) as [-> | Hk].
        -- rewrite nth_error_at in H. injection H as <-. right. now left.
        -- left. apply Hbusy. rewrite Hw.
           now rewrite (nth_error_middle _ before Idle (Busy p) after k Hk).
      * intros a b i q e H.
        apply app_snoc_split in H as [(_ & [=] & _) | (b' & _ & H)]. eauto.
      * intros a b q H.
        apply app_snoc_split in H as [(_ & [=] & _) | (b' & _ & H)]. eauto.
    + (* return *)
      split; [|split; assumption].
      intros k q H.
      destruct (Nat.eq_dec k (length before)) as [-> | Hk].
      * rewrite nth_error_at in H. discriminate.
      * apply Hbusy. rewrite Hw.
        now rewrite (nth_error_middle _ before Idle Returned after k Hk).
    + (* done *)
      pose proof (processFile_output _ _ _ _ _ Hcall) as Hout.
      simpl in Hout. rewrite Hout. split; [|split].
      * intros k q H. apply in_or_app. left.
        destruct (Nat.eq_dec k (length before)) as [-> | Hk].
        -- rewrite nth_error_at in H. discriminate.
        -- apply Hbusy. rewrite Hw.
           now rewrite (nth_error_middle _ before (Busy p) Idle after k Hk).
      * intros a b i q e H.
        apply app_snoc_split in H as [(_ & [=] & _) | (b' & _ & H)]. eauto.
      * intros a b q H.
        apply app_snoc_split in H as [(-> & [= ->] & _) | (b' & _ & H)];
          [|eauto].
        exists (S (length before)). apply Hbusy. rewrite Hw.
        apply nth_error_at.
    + (* failed *)
      pose proof (processFile_output _ _ _ _ _ Hcall) as Hout.
      simpl in Hout. rewrite app_nil_r in Hout. rewrite Hout.
      split; [|split].
      * intros k q H. apply in_or_app. left.
        destruct (Nat.eq_dec k (length before)) as [-> | Hk].
        -- rewrite nth_error_at in H. discriminate.
        -- apply Hbusy. rewrite Hw.
           now rewrite (nth_error_middle _ before (Busy p) Idle after k Hk).
      * intros a b i q e' H.
        apply app_snoc_split in H as [(-> & [= -> -> ->] & _) | (b' & _ & H)];
          [|eauto].
        split.
        -- apply Hbusy. rewrite Hw. apply nth_error_at.
        -- rewrite Hw, length_app in Hlen. simpl in Hlen. lia.
      * intros a b q H.
        apply app_snoc_split in H as [(_ & [=] & _) | (b' & _ & H)]. eauto.
    + (* panic *)
      pose proof (processFile_no_panic Context.Background p (world st)) as H.
      rewrite Hcall in H. now elim H.
Qed.
End PoolLog.

(** X18.  Every error line of the log names a worker between 1 and the
    number of workers, and the start line of that worker for that path
    stands before it in the output. *)
Theorem error_follows_start
    (env : Env) jsonPaths numWorkers fs n st a b id p e :
  run (length jsonPaths) n (initial jsonPaths numWorkers fs) st ->
  output (world st) = (a ++ EvError id p e :: b)%list ->
  In (EvStart id p) a /\ 1 <= id <= numWorkers.
Proof.
  intros Hrun Hout.
  destruct (run_log jsonPaths numWorkers fs n st Hrun) as (_ & Herr & _).
  eauto.
Qed.

Lemma error_follows_start_witness :
  In (EvStart 1 "/w/a.json") [EvStart 1 "/w/a.json"] /\ 1 <= 1 <= 1.
Proof.
  apply (error_follows_start SampleEnv.env SampleEnv.paths 1 SampleEnv.disk 9
           SampleRun.final [EvStart 1 "/w/a.json"]
           [EvStart 1 "/w/b.json"; EvSuccess "/w/b.json"; EvDone 2]
           1 "/w/a.json" ErrMissingTranscription).
  - exact sample_run.
  - reflexivity.
Defined.

(** ** The scan of the directory *)

Lemma scan_spec (lib : Library) workDir files jsonPaths :
  scan workDir files jsonPaths =
  (jsonPaths
   ++ map (fun file => Join workDir (DirEntry.Name file))
          (filter isJSONFile files))%list.
Proof.
  revert jsonPaths; induction files as [|file rest IH]; intros acc; simpl.
  - now rewrite app_nil_r.
  - destruct (isJSONFile file); simpl; rewrite IH; [|reflexivity].
    now rewrite <- app_assoc.
Qed.

(** X19.  The scan yields, in the order of the entries, the joined
    paths of the entries that are no directories and whose lower-cased
    name ends in [.json].  [main] returns at line 178 exactly when no
    entry is one of these; otherwise it starts the pool on this list,
    which is then not empty. *)
Theorem start_spec (lib : Library) (env : Env) workDir files numCPU fs :
  scan workDir files [] =
  map (fun file => Join workDir (DirEntry.Name file))
      (filter isJSONFile files)
  /\ (start workDir files numCPU fs = None
      <-> forall file, In file files -> isJSONFile file = false)
  /\ (forall st,
        start workDir files numCPU fs = Some st ->
        st = initial (scan workDir files []) numCPU fs
        /\ scan workDir files [] <> []).
Proof.
  assert (Hscan : scan workDir files [] =
                  map (fun file => Join workDir (DirEntry.Name file))
                      (filter isJSONFile files))
    by now rewrite scan_spec.
  split; [exact Hscan|]. unfold start. rewrite Hscan. split.
  - rewrite length_map.
    destruct (filter isJSONFile files) as [|file rest] eqn:E; simpl.
    + split; [intros _|reflexivity]. intros file Hin.
      destruct (isJSONFile file) eqn:Hf; [|reflexivity].
      assert (Hin' : In file (filter isJSONFile files))
        by (apply filter_In; auto).
      rewrite E in Hin'. contradiction.
    + split; [discriminate|]. intros Hnone.
      assert (Hin : In file (filter isJSONFile files))
        by (rewrite E; now left).
      apply filter_In in Hin as [Hin Hf]. now rewrite (Hnone _ Hin) in Hf.
  - intros st.
    destruct (map _ (filter isJSONFile files)) as [|path rest]; simpl;
      [discriminate|].
    intros [= <-]. split; [reflexivity | discriminate].
Qed.

(** X20.  When [main] has started the pool with at least one worker
    and is past its last line, no goroutine has panicked, the tasks
    reported (with the success message or in the log) are the scanned
    files, each once, and the count printed last is their number. *)
Theorem main_attempts_every_json_file
    (lib : Library) (env : Env) workDir files numCPU fs st0 n st :
  start workDir files numCPU fs = Some st0 ->
  0 < numCPU ->
  run (length (scan workDir files [])) n st0 st ->
  mainAt st = Finished ->
  crashed st = false
  /\ Permutation (reported (output (world st)))
                 (map (fun file => Join workDir (DirEntry.Name file))
                      (filter isJSONFile files))
  /\ exists out,
       output (world st) =
       (out ++ [EvDone (length (filter isJSONFile files))])%list.
Proof.
  intros Hstart Hpos Hrun Hmain.
  destruct (start_spec lib env workDir files numCPU fs) as (Hscan & _ & Hsome).
  destruct (Hsome _ Hstart) as [-> _].
  pose proof (run_inv _ _ _ _ _ Hrun) as Hinv.
  destruct (pool_finished _ _ _ Hpos Hinv Hmain) as (_ & Hrep & out & Hout).
  split; [apply (inv_alive _ _ _ Hinv)|].
  rewrite Hscan in Hrep, Hout. rewrite length_map in Hout.
  split; [exact Hrep | now exists out].
Qed.

Lemma main_attempts_every_json_file_witness :
  Permutation (reported (output (world SampleRun.final)))
              ["/w/a.json"; "/w/b.json"].
Proof.
  destruct (main_attempts_every_json_file SampleLib.lib SampleEnv.env
              "/w" SampleLib.entries 1 SampleEnv.disk
              (initial (env := SampleEnv.env) SampleEnv.paths 1 SampleEnv.disk)
              9 SampleRun.final) as (_ & Hrep & _).
  - reflexivity.
  - lia.
  - exact sample_run.
  - reflexivity.
  - exact Hrep.
Defined.

Lemma lowerBytes_app a b : lowerBytes (a ++ b) = lowerBytes a ++ lowerBytes b.
Proof. induction a as [|c a IH]; simpl; [reflexivity | now rewrite IH]. Qed.

Lemma lowerBytes_split s a b :
  lowerBytes s = a ++ b ->
  exists s1 s2, s = s1 ++ s2 /\ lowerBytes s1 = a /\ lowerBytes s2 = b.
Proof.
  revert s; induction a as [|c a IH]; intros s H; simpl in H.
  - exists "", s. auto.
  - destruct s as [|d s]; [discriminate|]. simpl in H.
    injection H as Hc H. destruct (IH _ H) as (s1 & s2 & -> & <- & <-).
    exists (String d s1), s2. simpl. now rewrite Hc.
Qed.

Lemma isASCII_app a b : isASCII (a ++ b) = isASCII a && isASCII b.
Proof.
  unfold isASCII. now rewrite list_ascii_of_string_app, forallb_app.
Qed.

(** X21.  For a name of ASCII bytes the test of line 170 holds exactly
    when the entry is no directory and the name ends in [.json] written
    in any mix of upper and lower case. *)
Theorem isJSONFile_ascii (lib : Library) name isDir :
  isASCII name = true ->
  isJSONFile (DirEntry.mk name isDir) = true
  <-> isDir = false
      /\ exists stem ext, name = stem ++ ext /\ lowerBytes ext = ".json".
Proof.
  intros Hascii. unfold isJSONFile, ToLower; simpl. rewrite Hascii.
  rewrite andb_true_iff, negb_true_iff. split.
  - intros [Hdir Hsuffix]. split; [exact Hdir|].
    apply HasSuffix_true in Hsuffix as (a & Ha).
    apply lowerBytes_split in Ha as (stem & ext & -> & _ & Hext). eauto.
  - intros [Hdir (stem & ext & -> & Hext)]. split; [exact Hdir|].
    rewrite lowerBytes_app, Hext. apply HasSuffix_append.
Qed.

Lemma isJSONFile_ascii_witness :
  isJSONFile (lib := SampleLib.lib) (DirEntry.mk "Talk.v2.JsOn" false) = true.
Proof.
  apply (isJSONFile_ascii SampleLib.lib "Talk.v2.JsOn" false).
  - reflexivity.
  - split; [reflexivity|]. exists "Talk.v2", ".JsOn". split; reflexivity.
Defined.

Lemma srt_not_json (x a : string) : x ++ ".srt" <> a ++ ".json".
Proof.
  intros H. apply (f_equal (fun s => rev (list_ascii_of_string s))) in H.
  rewrite !list_ascii_of_string_app, !rev_app_distr in H. discriminate.
Qed.

(** X22.  No subtitle path is a path that passes the test of the scan:
    for ASCII names, a name that ends in [.srt] is refused by the test
    of line 170, and the subtitle path of any input differs from every
    path whose lower-cased form ends in [.json]. *)
Theorem subtitle_is_no_input (lib : Library) jsonPath q :
  isASCII q = true ->
  (forall stem isDir,
      q = stem ++ ".srt" -> isJSONFile (DirEntry.mk q isDir) = false)
  /\ (HasSuffix (ToLower q) ".json" = true -> srtPathOf jsonPath <> q).
Proof.
  intros Hascii.
  assert (Hsrt : forall stem,
             q = stem ++ ".srt" -> HasSuffix (ToLower q) ".json" = false).
  { intros stem ->. unfold ToLower. rewrite Hascii, lowerBytes_app.
    change (lowerBytes ".srt") with ".srt".
    destruct (HasSuffix (lowerBytes stem ++ ".srt") ".json") eqn:E;
      [|reflexivity].
    apply HasSuffix_true in E as (a & Ha). now elim (srt_not_json _ _ Ha). }
  split.
  - intros stem isDir Hq. unfold isJSONFile; simpl.
    rewrite (Hsrt _ Hq). apply andb_false_r.
  - intros Hjson Heq.
    destruct (srtPathOf_structure jsonPath) as (stem & _ & Hstem & _).
    rewrite Heq in Hstem. now rewrite (Hsrt _ Hstem) in Hjson.
Qed.

Lemma subtitle_is_no_input_witness :
  srtPathOf "/w/b.JSON" <> "/w/b.json".
Proof.
  destruct (subtitle_is_no_input SampleLib.lib "/w/b.JSON" "/w/b.json")
    as [_ Hfresh].
  - reflexivity.
  - apply Hfresh. reflexivity.
Defined.


